(** * MP4 transcript maker: the pipeline of [MP4.py], embedded and verified.

    Python values are modelled as follows.
    - [str] is a list of Unicode code points ([N]); [len] counts code points.
    - [bytes] is a Rocq [string] (a list of 8-bit characters).
    - [int] is [Z].
    - [pathlib.Path] is a record of an anchor and the list of path components
      (POSIX flavour).
    - an [AudioSegment] is its timeline, one abstract sample per millisecond,
      so that [len(audio)] is the length of the list. *)

From Stdlib Require Import List ZArith NArith Lia Bool Ascii.
From Stdlib Require String DecimalN.
Import ListNotations String.StringSyntax.

Local Open Scope string_scope.
Local Open Scope Z_scope.

(** ** Python built-ins used by the program *)

Module Py.

Abbreviation str := (list N) (only parsing).
Abbreviation bytes := String.string (only parsing).

Definition len {A} (l : list A) : Z := Z.of_nat (List.length l).

(** Truth value of a string: only the empty string is false. *)
Definition truthy (s : str) : bool :=
  match s with [] => false | _ :: _ => true end.

(** [str.isspace] on one code point: the ASCII table of CPython
    ([\t \n \v \f \r], [0x1C]-[0x1F], space) and the non-ASCII code points
    of [_PyUnicode_IsWhitespace]. *)
Definition is_space (c : N) : bool :=
  (((0x09 <=? c) && (c <=? 0x0D)) || ((0x1C <=? c) && (c <=? 0x20))
   || (c =? 0x85) || (c =? 0xA0) || (c =? 0x1680)
   || ((0x2000 <=? c) && (c <=? 0x200A))
   || (c =? 0x2028) || (c =? 0x2029) || (c =? 0x202F) || (c =? 0x205F)
   || (c =? 0x3000))%N.

Fixpoint lstrip (s : str) : str :=
  match s with
  | [] => []
  | c :: r => if is_space c then lstrip r else s
  end.

Definition rstrip (s : str) : str := rev (lstrip (rev s)).

(** [s.strip()] with no argument. *)
Definition strip (s : str) : str := rstrip (lstrip s).

(** [sep.join(parts)]. *)
Fixpoint join (sep : str) (parts : list str) : str :=
  match parts with
  | [] => []
  | [p] => p
  | p :: ps => p ++ sep ++ join sep ps
  end.

(** Number of items of [range(start, stop, step)] for a non-zero [step], as
    CPython's range object computes it. *)
Definition range_length (start stop step : Z) : Z :=
  if 0 <? step
  then (if start <? stop then (stop - start - 1) / step + 1 else 0)
  else (if stop <? start then (start - stop - 1) / (- step) + 1 else 0).

Definition range_items (start stop step : Z) : list Z :=
  map (fun k => start + Z.of_nat k * step)
      (seq 0 (Z.to_nat (range_length start stop step))).

(** [range(start, stop, step)]: a zero step raises [ValueError]. *)
Definition range (start stop step : Z) : option (list Z) :=
  if step =? 0 then None else Some (range_items start stop step).

(** Index normalisation of a slice bound against a sequence of length [n]. *)
Definition clamp (n k : Z) : Z :=
  if k <? 0 then Z.max (k + n) 0 else Z.min k n.

(** [l[i:j]] on a sequence. *)
Definition slice {A} (l : list A) (i j : Z) : list A :=
  let lo := clamp (len l) i in
  let hi := clamp (len l) j in
  firstn (Z.to_nat (hi - lo)) (skipn (Z.to_nat lo) l).

(** Decoding of a UTF-8 literal into code points; the program's literals are
    well-formed, ill-formed input maps byte by byte. *)
Definition cont (a : ascii) : N := (N_of_ascii a mod 64)%N.

Fixpoint utf8_decode (s : bytes) : str :=
  match s with
  | String.EmptyString => []
  | String.String a r =>
      let b := N_of_ascii a in
      if (b <? 0x80)%N then b :: utf8_decode r
      else if (b <? 0xE0)%N then
        match r with
        | String.String a1 r1 => ((b mod 32) * 64 + cont a1)%N :: utf8_decode r1
        | _ => b :: utf8_decode r
        end
      else if (b <? 0xF0)%N then
        match r with
        | String.String a1 (String.String a2 r2) =>
            ((b mod 16) * 4096 + cont a1 * 64 + cont a2)%N :: utf8_decode r2
        | _ => b :: utf8_decode r
        end
      else
        match r with
        | String.String a1 (String.String a2 (String.String a3 r3)) =>
            ((b mod 8) * 262144 + cont a1 * 4096 + cont a2 * 64 + cont a3)%N
              :: utf8_decode r3
        | _ => b :: utf8_decode r
        end
  end.

(** [s.encode("utf-8")]: lone surrogates cannot be encoded
    ([UnicodeEncodeError]). *)
Definition utf8_encode_char (c : N) : option (list ascii) :=
  (if c <? 0x80 then Some [ascii_of_N c]
   else if c <? 0x800 then
     Some [ascii_of_N (0xC0 + c / 64); ascii_of_N (0x80 + c mod 64)]
   else if (0xD800 <=? c) && (c <=? 0xDFFF) then None
   else if c <? 0x10000 then
     Some [ascii_of_N (0xE0 + c / 4096); ascii_of_N (0x80 + (c / 64) mod 64);
           ascii_of_N (0x80 + c mod 64)]
   else if c <? 0x110000 then
     Some [ascii_of_N (0xF0 + c / 262144);
           ascii_of_N (0x80 + (c / 4096) mod 64);
           ascii_of_N (0x80 + (c / 64) mod 64);
           ascii_of_N (0x80 + c mod 64)]
   else None)%N.

Fixpoint utf8_encode (s : str) : option bytes :=
  match s with
  | [] => Some String.EmptyString
  | c :: r =>
      match utf8_encode_char c, utf8_encode r with
      | Some bs, Some rest => Some (String.append (String.string_of_list_ascii bs) rest)
      | _, _ => None
      end
  end.

End Py.

Abbreviation str := (list N) (only parsing).

(** A source literal, as the code points it denotes. *)
Definition lit (s : Py.bytes) : str := Py.utf8_decode s.

(** ** The paragraph formatter ([paragraphize]) *)

(** The character class of the pattern: ideographic full stop, full-width
    exclamation mark, full-width question mark, full-width semicolon. *)
Definition is_delim (c : N) : bool :=
  ((c =? 0x3002) || (c =? 0xFF01) || (c =? 0xFF1F) || (c =? 0xFF1B))%N.

(** [re.split] with the pattern in a capture group: the pieces between the
    matches alternate with the matched marks, so the list has odd length. *)
Fixpoint re_split (txt : str) : list str :=
  match txt with
  | [] => [[]]
  | c :: r =>
      if is_delim c then [] :: [c] :: re_split r
      else match re_split r with
           | p :: ps => (c :: p) :: ps
           | [] => [[c]]
           end
  end.

(** The comprehension that glues each piece to the mark after it:
    ["".join(sents[i:i+2]).strip() for i in range(0, len(sents), 2)]. *)
Definition glue (sents : list str) : list str :=
  map (fun i => Py.strip (concat (Py.slice sents i (i + 2))))
      (Py.range_items 0 (Py.len sents) 2).

Definition sentences (txt : str) : list str := glue (re_split txt).

(** The buffer [cur] is emitted, stripped, when it is not blank. *)
Definition flush (buf : list str) (cur : str) : list str :=
  if Py.truthy (Py.strip cur) then buf ++ [Py.strip cur] else buf.

(** One iteration of the loop over the sentences, on the pair [(buf, cur)]. *)
Definition para_step (target_max : Z) (st : list str * str) (s : str)
  : list str * str :=
  let '(buf, cur) := st in
  if Py.len cur + Py.len s <? target_max
  then (buf, cur ++ s)
  else (flush buf cur, s).

Definition para_loop (target_max : Z) (sents : list str) (st : list str * str)
  : list str * str :=
  fold_left (para_step target_max) sents st.

(** The loop and the final flush, on a list of sentences. *)
Definition group (target_max : Z) (sents : list str) : list str :=
  let '(buf, cur) := para_loop target_max sents ([], []) in
  flush buf cur.

Definition paragraphize (txt : str) (target_max : Z) : list str :=
  group target_max (sentences txt).

(** ** Paths ([pathlib], POSIX flavour) *)

Record Path := mkPath { root : str; names : list str }.

Definition str_eq_dec : forall a b : str, {a = b} + {a <> b} :=
  list_eq_dec N.eq_dec.

Definition Path_eq_dec (p q : Path) : {p = q} + {p <> q}.
Proof.
  decide equality; first [apply (list_eq_dec str_eq_dec) | apply str_eq_dec].
Defined.

Definition newline : N := 0x0A.
Definition slash : N := 0x2F.
Definition dot : N := 0x2E.

(** [s.split("/")]. *)
Fixpoint split_slash (s : str) : list str :=
  match s with
  | [] => [[]]
  | c :: r =>
      if (c =? slash)%N then [] :: split_slash r
      else match split_slash r with
           | p :: ps => (c :: p) :: ps
           | [] => [[c]]
           end
  end.

(** [Path(s)]: one leading slash is the root, exactly two are kept, three or
    more collapse to one; empty components and ["."] are dropped. *)
Definition path_of_str (s : str) : Path :=
  let r :=
    match s with
    | a :: b :: c :: _ =>
        if (a =? slash)%N
        then (if (b =? slash)%N && negb (c =? slash)%N
              then [slash; slash] else [slash])
        else []
    | [a; b] =>
        if (a =? slash)%N
        then (if (b =? slash)%N then [slash; slash] else [slash])
        else []
    | [a] => if (a =? slash)%N then [slash] else []
    | [] => []
    end in
  let keep n :=
    Py.truthy n && negb (if str_eq_dec n [dot] then true else false) in
  mkPath r (filter keep (split_slash s)).

Definition is_absolute (p : Path) : bool := Py.truthy (root p).

(** [p.name]: the final component, empty when there is none. *)
Definition name (p : Path) : str := last (names p) [].

(** [p / q]: an absolute right operand replaces the left one. *)
Definition path_join (p q : Path) : Path :=
  if is_absolute q then q else mkPath (root p) (names p ++ names q).

(** [p / s] for a string [s]. *)
Definition div (p : Path) (s : str) : Path := path_join p (path_of_str s).

(** [s.rfind(".")], as an index from the left. *)
Fixpoint rfind_dot (s : str) : option nat :=
  match s with
  | [] => None
  | c :: r =>
      match rfind_dot r with
      | Some i => Some (S i)
      | None => if (c =? dot)%N then Some O else None
      end
  end.

(** The index at which [p.suffix] starts, when the name has a suffix: the
    last dot, neither first nor last in the name. *)
Definition suffix_index (nm : str) : option nat :=
  match rfind_dot nm with
  | Some i =>
      if (0 <? Z.of_nat i) && (Z.of_nat i <? Py.len nm - 1) then Some i
      else None
  | None => None
  end.

Definition stem (p : Path) : str :=
  match suffix_index (name p) with
  | Some i => firstn i (name p)
  | None => name p
  end.

(** [p.with_suffix(suffix)] for a well-formed [suffix]; a path with an empty
    name raises [ValueError]. *)
Definition with_suffix (p : Path) (suffix : str) : option Path :=
  if Py.truthy (name p)
  then Some (mkPath (root p) (removelast (names p) ++ [stem p ++ suffix]))
  else None.

Definition parent (p : Path) : Path := mkPath (root p) (removelast (names p)).

(** [str(p)]. *)
Definition str_of_path (p : Path) : str :=
  match root p, names p with
  | [], [] => [dot]
  | r, ns => r ++ Py.join [slash] ns
  end.

(** ** Formatting of integers *)

Fixpoint uint_digits (d : Decimal.uint) : str :=
  (match d with
   | Decimal.Nil => []
   | Decimal.D0 r => 48 :: uint_digits r
   | Decimal.D1 r => 49 :: uint_digits r
   | Decimal.D2 r => 50 :: uint_digits r
   | Decimal.D3 r => 51 :: uint_digits r
   | Decimal.D4 r => 52 :: uint_digits r
   | Decimal.D5 r => 53 :: uint_digits r
   | Decimal.D6 r => 54 :: uint_digits r
   | Decimal.D7 r => 55 :: uint_digits r
   | Decimal.D8 r => 56 :: uint_digits r
   | Decimal.D9 r => 57 :: uint_digits r
   end)%N.

Definition zero_pad (width : nat) (digits : str) : str :=
  repeat 48%N (width - List.length digits) ++ digits.

(** The format [{n:03d}]: sign-aware zero padding to three characters. *)
Definition fmt_03d (n : Z) : str :=
  if n <? 0
  then 45%N :: zero_pad 2 (uint_digits (N.to_uint (Z.to_N (- n))))
  else zero_pad 3 (uint_digits (N.to_uint (Z.to_N n))).

(** ** Audio and the chunker ([chunk_wav]) *)

Definition AudioSegment := list Z.

(** [audio[i:j]] in milliseconds: both bounds are cut at the length, a
    negative bound counts from the end, and the samples are sliced. *)
Definition parse_position (audio : AudioSegment) (v : Z) : Z :=
  if v <? 0 then Py.len audio - Z.abs v else v.

Definition audio_slice (audio : AudioSegment) (i j : Z) : AudioSegment :=
  let start := Z.min i (Py.len audio) in
  let stop := Z.min j (Py.len audio) in
  Py.slice audio (parse_position audio start) (parse_position audio stop).

(** The name of the segment file of the window that starts at [i]. *)
Definition part_path (wav_path : Path) (i step : Z) : Path :=
  div (parent wav_path)
      (stem wav_path ++ lit ".part" ++ fmt_03d (i / step) ++ lit ".wav").

(** The windows of the loop of [chunk_wav], each with the millisecond it
    starts at; [None] is the [ValueError] of a zero step. *)
Definition chunk_windows (audio : AudioSegment) (minutes : Z)
  : option (list (Z * AudioSegment)) :=
  let step := minutes * 60 * 1000 in
  match Py.range 0 (Py.len audio) step with
  | None => None
  | Some starts => Some (map (fun i => (i, audio_slice audio i (i + step))) starts)
  end.

(** ** The world the pipeline runs in *)

(** What the program writes to disk. *)
Inductive file :=
| FWav (audio : AudioSegment) (parameters : list str)
| FText (content : Py.bytes)
| FDir.

Inductive exn :=
| RuntimeError (msg : str)
| ValueError
| FileNotFoundError (p : Path)
| FileExistsError (p : Path)
| UnicodeEncodeError
| ExternalError (msg : str).

(** The lines of the log panel, by the statement that writes them. *)
Inductive log_msg :=
| LogStart
| LogFfmpegOk
| LogExtract (src dst : str)
| LogChunked (count minutes : Z)
| LogLoadModel (model : str)
| LogTranscribing (idx total : Z) (part : str)
| LogTranscribed (chars : Z)
| LogWritten (outfile : Path)
| LogAllDone
| LogError (e : exn)
| LogTraceback (e : exn).

Inductive ui_event :=
| UiLog (m : log_msg)
| UiClearLog
| UiProgressConfigure (maximum value : Z)
| UiProgressValue (value : Z)
| UiProgressStep
| UiWarnNoInput
| UiErrorNotFound (p : Path)
| UiShowError (e : exn).

(** The mutable state: the files written so far (newest first), the
    converter registered with the audio library, the events sent to the
    form (newest first) and the guard of the form. *)
Record World := mkWorld {
  fs : list (Path * file);
  converter : option str;
  ui : list ui_event;
  running : bool
}.

(** [os.linesep]: what a line feed becomes in a file opened in text mode. *)
Inductive line_separator := LF | CRLF.

Definition linesep_str (sep : line_separator) : str :=
  match sep with LF => [0x0A]%N | CRLF => [0x0D; 0x0A]%N end.

(** The capabilities the program does not implement: the file system as the
    job finds it, the search path, the audio decoder, the recogniser and
    the platform's line separator. *)
Record Env := mkEnv {
  disk_exists : Path -> bool;
  disk_is_dir : Path -> bool;
  which : str -> option str;
  decode : Path -> exn + AudioSegment;
  load_model : str -> option exn;
  recognise :
    str -> file -> option str -> Z -> Z -> bool -> exn + list str;
  os_linesep : line_separator
}.

(** Job parameters, the dictionary built by [on_start]. *)
Record Params := mkParams {
  mp4_path : Path;
  minutes : Z;
  model : str;
  language : str;
  vad_ms : Z;
  beam : Z;
  cond_prev : bool;
  para_max : Z
}.

(** The variables of the form. *)
Record Form := mkForm {
  mp4_var : str;
  minutes_var : Z;
  model_var : str;
  language_var : str;
  vad_ms_var : Z;
  beam_var : Z;
  cond_prev_var : bool;
  paragraph_max_var : Z
}.

(** *** A state and exception monad over the world *)

Definition M (A : Type) : Type := World -> World * (exn + A).

Definition ret {A} (a : A) : M A := fun w => (w, inr a).
Definition raise {A} (e : exn) : M A := fun w => (w, inl e).
Definition bind {A B} (m : M A) (k : A -> M B) : M B :=
  fun w => match m w with
           | (w', inr a) => k a w'
           | (w', inl e) => (w', inl e)
           end.

Notation "x <- c1 ;; c2" := (bind c1 (fun x => c2))
  (at level 61, c1 at next level, right associativity).
Notation "c1 ;; c2" := (bind c1 (fun _ => c2))
  (at level 61, right associativity).

Definition lookup (p : Path) (l : list (Path * file)) : option file :=
  match find (fun e => if Path_eq_dec (fst e) p then true else false) l with
  | Some e => Some (snd e)
  | None => None
  end.

Definition emit (e : ui_event) : M unit :=
  fun w => (mkWorld (fs w) (converter w) (e :: ui w) (running w), inr tt).

Definition log (m : log_msg) : M unit := emit (UiLog m).

Definition write_file (p : Path) (f : file) : M unit :=
  fun w => (mkWorld ((p, f) :: fs w) (converter w) (ui w) (running w), inr tt).

Definition set_converter (ff : str) : M unit :=
  fun w => (mkWorld (fs w) (Some ff) (ui w) (running w), inr tt).

Definition set_running (b : bool) (w : World) : World :=
  mkWorld (fs w) (converter w) (ui w) b.

Section Pipeline.

Variable env : Env.
Variable base_dir : Path.

(** [p.exists()]: written by the program, or on disk before it. *)
Definition path_exists (p : Path) (w : World) : bool :=
  match lookup p (fs w) with
  | Some _ => true
  | None => disk_exists env p
  end.

(** [x or y] on optional strings: [None] and the empty string are false. *)
Definition py_or (x y : option str) : option str :=
  match x with
  | Some s => if Py.truthy s then x else y
  | None => y
  end.

Definition ffmpeg_missing : str :=
  lit "找不到 ffmpeg，請將 ffmpeg.exe 放在本程式同資料夾，或把 ffmpeg 加到 PATH。".

Definition ensure_ffmpeg : M str :=
  fun w =>
    let local_ffmpeg := div base_dir (lit "ffmpeg.exe") in
    let ff :=
      if path_exists local_ffmpeg w
      then Some (str_of_path local_ffmpeg)
      else py_or (which env (lit "ffmpeg")) (which env (lit "ffmpeg.exe")) in
    match ff with
    | Some s =>
        if Py.truthy s then (set_converter s ;; ret s) w
        else raise (RuntimeError ffmpeg_missing) w
    | None => raise (RuntimeError ffmpeg_missing) w
    end.

(** [AudioSegment.from_file(p)]: a file the program wrote is read back as
    written, any other is decoded by the library. *)
Definition read_audio (p : Path) : M AudioSegment :=
  fun w =>
    match lookup p (fs w) with
    | Some (FWav a _) => (w, inr a)
    | Some _ => (w, inl (ExternalError (str_of_path p)))
    | None => (w, decode env p)
    end.

Definition extract_wav_from_mp4 (mp4 : Path) : M Path :=
  match with_suffix mp4 (lit ".wav") with
  | None => raise ValueError
  | Some wav =>
      log (LogExtract (name mp4) (name wav)) ;;
      audio <- read_audio mp4 ;;
      write_file wav (FWav audio []) ;;
      ret wav
  end.

(** The parameters of the export of a segment: 16 kHz, one channel. *)
Definition export_parameters : list str :=
  [lit "-ar"; lit "16000"; lit "-ac"; lit "1"].

(** The body of the loop of [chunk_wav] over the windows. *)
Fixpoint export_parts (wav_path : Path) (step : Z)
  (windows : list (Z * AudioSegment)) : M (list Path) :=
  match windows with
  | [] => ret []
  | (i, seg) :: rest =>
      let out := part_path wav_path i step in
      write_file out (FWav seg export_parameters) ;;
      parts <- export_parts wav_path step rest ;;
      ret (out :: parts)
  end.

Definition chunk_wav (wav_path : Path) (mins : Z) : M (list Path) :=
  audio <- read_audio wav_path ;;
  match chunk_windows audio mins with
  | None => raise ValueError
  | Some windows =>
      parts <- export_parts wav_path (mins * 60 * 1000) windows ;;
      log (LogChunked (Py.len parts) mins) ;;
      ret parts
  end.

(** [lang.lower() == "auto"]: only the ASCII capitals lower to the letters
    of the word. *)
Definition lower_ascii (c : N) : N :=
  (if (65 <=? c) && (c <=? 90) then c + 32 else c)%N.

Definition is_auto (lang : str) : bool :=
  if str_eq_dec (map lower_ascii lang) (lit "auto") then true else false.

(** [None if (not lang or lang.lower() == "auto") else lang]. *)
Definition use_language (lang : str) : option str :=
  if negb (Py.truthy lang) || is_auto lang then None else Some lang.

Definition WhisperModel (m : str) : M str :=
  match load_model env m with
  | Some e => raise e
  | None => ret m
  end.

(** [model.transcribe(str(part), ...)] and the join of the segments' text. *)
Definition transcribe (m : str) (p : Params) (use_lang : option str)
  (part : Path) : M str :=
  fun w =>
    match lookup part (fs w) with
    | None => (w, inl (FileNotFoundError part))
    | Some f =>
        match recognise env m f use_lang (vad_ms p) (beam p) (cond_prev p) with
        | inl e => (w, inl e)
        | inr segs => (w, inr (concat segs))
        end
    end.

(** The loop over [enumerate(parts, 1)]. *)
Fixpoint transcribe_parts (m : str) (p : Params) (use_lang : option str)
  (total idx : Z) (parts : list Path) : M (list str) :=
  match parts with
  | [] => ret []
  | part :: rest =>
      log (LogTranscribing idx total (name part)) ;;
      piece <- transcribe m p use_lang part ;;
      emit UiProgressStep ;;
      texts <- transcribe_parts m p use_lang total (idx + 1) rest ;;
      ret (piece :: texts)
  end.

(** [outdir.mkdir(exist_ok=True)]. *)
Definition mkdir_exist_ok (d : Path) : M unit :=
  fun w =>
    match lookup d (fs w) with
    | Some FDir => (w, inr tt)
    | Some _ => (w, inl (FileExistsError d))
    | None =>
        if disk_is_dir env d then (w, inr tt)
        else if disk_exists env d then (w, inl (FileExistsError d))
        else write_file d FDir w
    end.

(** What a text-mode file writes for a string: every line feed becomes the
    platform's line separator. *)
Definition translate_newlines (sep : line_separator) (s : str) : str :=
  flat_map (fun c => if (c =? newline)%N then linesep_str sep else [c]) s.

(** [outfile.write_text(s, encoding="utf-8")]: the file is opened for
    writing, which creates or empties it, and then the string is encoded
    and written; a string that cannot be encoded leaves the empty file. *)
Definition write_text (outfile : Path) (s : str) : M unit :=
  write_file outfile (FText "") ;;
  match Py.utf8_encode (translate_newlines (os_linesep env) s) with
  | None => raise UnicodeEncodeError
  | Some content => write_file outfile (FText content)
  end.

(** The body of the [try] of [run_pipeline]. *)
Definition pipeline_body (p : Params) : M unit :=
  ensure_ffmpeg ;;
  log LogFfmpegOk ;;
  wav <- extract_wav_from_mp4 (mp4_path p) ;;
  parts <- chunk_wav wav (minutes p) ;;
  emit (UiProgressConfigure (Py.len parts) 0) ;;
  let lang := language p in
  let use_lang := use_language lang in
  log (LogLoadModel (model p)) ;;
  m <- WhisperModel (model p) ;;
  texts <- transcribe_parts m p use_lang (Py.len parts) 1 parts ;;
  let full_txt := concat texts in
  log (LogTranscribed (Py.len full_txt)) ;;
  let paras := paragraphize full_txt (para_max p) in
  let outdir := div base_dir (lit "transcripts") in
  mkdir_exist_ok outdir ;;
  let outfile := div outdir (stem (mp4_path p) ++ lit ".txt") in
  write_text outfile (Py.join [newline; newline] paras) ;;
  log (LogWritten outfile) ;;
  log LogAllDone.

(** [run_pipeline]: the handler logs and shows the exception, and the job is
    marked as not running in every case. *)
Definition run_pipeline (p : Params) (w : World) : World :=
  let w' :=
    match pipeline_body p w with
    | (w1, inr _) => w1
    | (w1, inl e) =>
        fst ((log (LogError e) ;; log (LogTraceback e) ;; emit (UiShowError e)) w1)
    end in
  set_running false w'.

(** What [on_start] decided. *)
Inductive start_outcome :=
| AlreadyRunning
| NoInput
| InputNotFound (p : Path)
| Started (p : Params).

(** The path of the job: an absolute input as it is, any other by its name
    in the base directory. *)
Definition resolve_input (mp4_input : str) : Path :=
  let p := path_of_str mp4_input in
  if negb (is_absolute p) then div base_dir (name p) else p.

Definition on_start (form : Form) (w : World) : World * start_outcome :=
  if running w then (w, AlreadyRunning)
  else
    let mp4_input := Py.strip (mp4_var form) in
    if negb (Py.truthy mp4_input) then (fst (emit UiWarnNoInput w), NoInput)
    else
      let p := resolve_input mp4_input in
      if negb (path_exists p w)
      then (fst (emit (UiErrorNotFound p) w), InputNotFound p)
      else
        let params :=
          mkParams p (minutes_var form) (model_var form) (language_var form)
                   (vad_ms_var form) (beam_var form) (cond_prev_var form)
                   (paragraph_max_var form) in
        let w1 := set_running true w in
        let w2 :=
          fst ((emit (UiProgressValue 0) ;; emit UiClearLog ;;
                log LogStart) w1) in
        (w2, Started params).

(** A press of the start button followed by the worker it starts. *)
Definition job (form : Form) (w : World) : World :=
  match on_start form w with
  | (w', Started p) => run_pipeline p w'
  | (w', _) => w'
  end.

End Pipeline.

(** ** Notions used to state the properties *)

(** The formatter in the words of its description: sentences are gathered
    greedily; when the buffer with the next sentence would reach or exceed
    the target, the buffer is flushed as a paragraph and the sentence starts
    a new buffer; a non-empty buffer left at the end is flushed. *)
Definition completed (cur : str) : list str :=
  match cur with [] => [] | _ :: _ => [cur] end.

Fixpoint greedy (target : Z) (cur : str) (sents : list str) : list str :=
  match sents with
  | [] => completed cur
  | s :: rest =>
      if target <=? Py.len (cur ++ s)
      then completed cur ++ greedy target s rest
      else greedy target (cur ++ s) rest
  end.

(** The pieces of [re_split], each glued to the mark after it, unstripped. *)
Fixpoint split_sents (txt : str) : list str :=
  match txt with
  | [] => [[]]
  | c :: r =>
      if is_delim c then [c] :: split_sents r
      else match split_sents r with
           | p :: ps => (c :: p) :: ps
           | [] => [[c]]
           end
  end.

Fixpoint pairs (l : list str) : list str :=
  match l with
  | a :: b :: rest => (a ++ b) :: pairs rest
  | [a] => [a]
  | [] => []
  end.

(** A sentence boundary falls right after position [n] of [txt]: the text up
    to and including that position is made of whole piece-and-mark pairs. *)
Definition boundary_after (txt : str) (n : nat) : Prop :=
  exists k, concat (firstn (2 * k) (re_split txt)) = firstn (S n) txt.

Definition nodelim (s : str) : bool :=
  forallb (fun c => negb (is_delim c)) s.

Definition no_lead (s : str) : Prop := Py.lstrip s = s.

Definition stripped (s : str) : Prop := Py.strip s = s.

(** A sentence closed by its mark, and the sentence after the last mark. *)
Definition closed_sentence (s : str) : Prop :=
  exists u d, s = u ++ [d] /\ is_delim d = true /\ nodelim u = true /\ no_lead u.

Definition last_sentence (s : str) : Prop := nodelim s = true /\ stripped s.

Definition canonical (ss : list str) : Prop :=
  exists body tail,
    ss = body ++ [tail] /\ Forall closed_sentence body /\ last_sentence tail.

Definition noslash (s : str) : bool :=
  forallb (fun c => negb (c =? slash)%N) s.

(** The last component of a path, as a list of at most one name. *)
Definition last_component (p : Path) : list str :=
  match names p with [] => [] | _ :: _ => [name p] end.

(** [ceil(a / b)] for a positive [b]. *)
Definition ceil_div (a b : Z) : Z := (a + b - 1) / b.

(** [needle in hay]. *)
Fixpoint starts_with (needle hay : str) : bool :=
  match needle, hay with
  | [], _ => true
  | a :: n, b :: h => (a =? b)%N && starts_with n h
  | _ :: _, [] => false
  end.

Fixpoint contains (needle hay : str) : bool :=
  starts_with needle hay ||
  match hay with
  | [] => false
  | _ :: h => contains needle h
  end.

(** *** A small world to run the pipeline in *)

Definition demo_base : Path := mkPath [slash] [lit "app"].

Definition demo_world : World := mkWorld [] None [] false.

(** The converter is next to the program, the input exists, the output
    directory does not exist yet; the recogniser hears the same two
    sentences in every chunk. *)
Definition demo_env : Env :=
  mkEnv (fun p => if Path_eq_dec p (div demo_base (lit "transcripts"))
                  then false else true)
        (fun _ => false)
        (fun _ => None)
        (fun _ => inr [3; 1; 4; 1; 5])
        (fun _ => None)
        (fun _ _ _ _ _ _ => inr [lit "今天天氣很好。"; lit "我們去公園散步。"])
        LF.

(** Nothing is installed: no converter next to the program or on the
    search path. *)
Definition bare_env : Env :=
  mkEnv (fun p => if Path_eq_dec p (div demo_base (lit "ffmpeg.exe"))
                  then false else true)
        (fun _ => false)
        (fun _ => None)
        (fun _ => inr [3; 1; 4; 1; 5])
        (fun _ => None)
        (fun _ _ _ _ _ _ => inr [])
        LF.

(** A minute and a half of audio, each sample its own millisecond, on a
    platform that writes line feeds as CR LF; the recogniser tells the
    chunks apart by their first sample and ends its text with a line
    feed. *)
Fixpoint count_up (n : nat) (start : Z) : list Z :=
  match n with
  | O => []
  | S n' => start :: count_up n' (start + 1)
  end.

Definition long_audio : AudioSegment := count_up (Z.to_nat 90000) 0.

Definition long_env : Env :=
  mkEnv (fun p => if Path_eq_dec p (div demo_base (lit "transcripts"))
                  then false else true)
        (fun _ => false)
        (fun _ => None)
        (fun _ => inr long_audio)
        (fun _ => None)
        (fun _ f _ _ _ _ =>
           match f with
           | FWav (0 :: _) _ => inr [lit "第一段的第一句。"; lit "第一段的第二句。"]
           | FWav _ _ => inr [lit "第二段。"; [newline]]
           | _ => inr []
           end)
        CRLF.

(** The world after the extraction of [long_audio]. *)
Definition demo_wav : Path := div demo_base (lit "talk.wav").

Definition long_extracted : World :=
  mkWorld [(demo_wav, FWav long_audio [])] None [] true.

Definition long_params : Params :=
  mkParams (div demo_base (lit "talk.mp4")) 1 (lit "small") (lit "zh")
           500 5 false 12.

Definition demo_params : Params :=
  mkParams (div demo_base (lit "talk.mp4")) 20 (lit "small") (lit "zh")
           500 5 false 170.

Definition demo_form : Form :=
  mkForm (lit " videos/2024/talk.mp4 ") 20 (lit "small") (lit "zh")
         500 5 false 170.

(** The small world after chunking: one segment file written. *)
Definition demo_part : Path :=
  mkPath [slash] [lit "app"; lit "talk.part000.wav"].

Definition demo_missing_part : Path :=
  mkPath [slash] [lit "app"; lit "talk.part001.wav"].

Definition demo_chunked : World :=
  mkWorld [(demo_part, FWav [3; 1; 4] export_parameters)] None [] true.

(** *** The folder button ([open_outdir]) *)

Inductive outdir_outcome :=
| FolderOpened (d : Path)
| FolderPathShown (d : Path)
| FolderFailed (e : exn).

(** The output directory is created when missing, then handed to the
    desktop ([startfile] tells whether that worked); when it did not, the
    path is shown instead. *)
Definition open_outdir (env : Env) (base_dir : Path) (startfile : Path -> bool)
  (w : World) : World * outdir_outcome :=
  let outdir := div base_dir (lit "transcripts") in
  match mkdir_exist_ok env outdir w with
  | (w1, inl e) => (w1, FolderFailed e)
  | (w1, inr _) =>
      if startfile outdir then (w1, FolderOpened outdir)
      else (w1, FolderPathShown outdir)
  end.

(** *** The log panel ([log]) *)

(** The text inserted for a message: [str(msg).rstrip() + "\n"]. *)
Definition log_line (msg : str) : str := Py.rstrip msg ++ [newline].

(** *** Further notions *)

(** The number of marks of the pattern in a text. *)
Definition count_marks (txt : str) : nat := List.length (filter is_delim txt).

(** A text of whitespace only. *)
Definition blank (s : str) : bool := forallb Py.is_space s.

(** The number a non-empty string of decimal digits denotes; any other
    string denotes none. *)
Definition digit_of (c : N) : option N :=
  (if (48 <=? c) && (c <=? 57) then Some (c - 48) else None)%N.

Fixpoint digits_acc (s : str) (acc : N) : option N :=
  match s with
  | [] => Some acc
  | c :: r =>
      match digit_of c with
      | Some d => digits_acc r (acc * 10 + d)%N
      | None => None
      end
  end.

Definition digits_value (s : str) : option N :=
  match s with [] => None | _ :: _ => digits_acc s 0%N end.

(** The steps the progress bar was advanced by. *)
Definition is_progress_step (e : ui_event) : bool :=
  match e with UiProgressStep => true | _ => false end.

Definition progress_steps (events : list ui_event) : nat :=
  List.length (filter is_progress_step events).



(** The code points UTF-8 can encode: scalar values, no surrogate. *)
Definition encodable (c : N) : bool :=
  ((c <? 0xD800) || ((0xDFFF <? c) && (c <? 0x110000)))%N.

(** ** Strings: stripping *)

Lemma lstrip_no_lead (s : str) : no_lead (Py.lstrip s).
Proof.
  unfold no_lead. induction s as [|c r IH]; simpl; [reflexivity|].
  destruct (Py.is_space c) eqn:E; [exact IH|].
  simpl. now rewrite E.
Qed.

Lemma no_lead_cases (s : str) :
  no_lead s <-> s = [] \/ exists c r, s = c :: r /\ Py.is_space c = false.
Proof.
  unfold no_lead. split.
  - destruct s as [|c r]; [now left|]. simpl.
    destruct (Py.is_space c) eqn:E.
    + intros H. exfalso.
      assert (L : (List.length (Py.lstrip r) <= List.length r)%nat).
      { clear. induction r as [|a r IH]; simpl; [lia|].
        destruct (Py.is_space a); simpl; lia. }
      rewrite H in L. simpl in L. lia.
    + intros _. right. now exists c, r.
  - intros [->|(c & r & -> & E)]; simpl; [reflexivity|]. now rewrite E.
Qed.

Lemma lstrip_app_nonspace (l m : str) (c : N) :
  Py.is_space c = false ->
  Py.lstrip (l ++ c :: m) = Py.lstrip l ++ c :: m.
Proof.
  intros E. induction l as [|a l IH]; simpl.
  - now rewrite E.
  - destruct (Py.is_space a); [exact IH|reflexivity].
Qed.

Lemma no_lead_app (a b : str) : no_lead a -> no_lead b -> no_lead (a ++ b).
Proof.
  intros Ha Hb. apply no_lead_cases in Ha. apply no_lead_cases.
  destruct Ha as [->|(c & r & -> & E)].
  - simpl. now apply no_lead_cases.
  - right. now exists c, (r ++ b).
Qed.

Lemma rstrip_no_lead (s : str) : no_lead s -> no_lead (Py.rstrip s).
Proof.
  intros H. apply no_lead_cases in H. apply no_lead_cases.
  destruct H as [->|(c & r & -> & E)]; [now left|].
  right. unfold Py.rstrip. simpl rev.
  replace (rev r ++ [c]) with (rev r ++ c :: []) by reflexivity.
  rewrite (lstrip_app_nonspace _ _ _ E), rev_app_distr. simpl.
  now exists c, (rev (Py.lstrip (rev r))).
Qed.

Lemma stripped_iff (s : str) : stripped s <-> no_lead s /\ no_lead (rev s).
Proof.
  unfold stripped, Py.strip. split.
  - intros H. split.
    + rewrite <- H. apply rstrip_no_lead, lstrip_no_lead.
    + rewrite <- H. unfold Py.rstrip. rewrite rev_involutive.
      apply lstrip_no_lead.
  - intros [H1 H2]. rewrite H1. unfold Py.rstrip. rewrite H2.
    apply rev_involutive.
Qed.

Lemma strip_stripped (s : str) : stripped (Py.strip s).
Proof.
  apply stripped_iff. split.
  - apply rstrip_no_lead, lstrip_no_lead.
  - unfold Py.strip, Py.rstrip. rewrite rev_involutive. apply lstrip_no_lead.
Qed.

Lemma stripped_nil : stripped [].
Proof. reflexivity. Qed.

Lemma stripped_app (a b : str) : stripped a -> stripped b -> stripped (a ++ b).
Proof.
  intros Ha Hb. apply stripped_iff in Ha, Hb. apply stripped_iff.
  destruct Ha, Hb. split; [now apply no_lead_app|].
  rewrite rev_app_distr. now apply no_lead_app.
Qed.

(** ** Slices and ranges *)

Lemma len_cons {A} (a : A) (l : list A) : Py.len (a :: l) = Py.len l + 1.
Proof. unfold Py.len. simpl List.length. lia. Qed.

Lemma len_app {A} (l m : list A) : Py.len (l ++ m) = Py.len l + Py.len m.
Proof. unfold Py.len. rewrite length_app. lia. Qed.

Lemma len_nonneg {A} (l : list A) : 0 <= Py.len l.
Proof. unfold Py.len. lia. Qed.

Lemma slice_nonneg {A} (l : list A) (i j : Z) :
  0 <= i -> 0 <= j ->
  Py.slice l i j
  = firstn (Z.to_nat (Z.min j (Py.len l) - Z.min i (Py.len l)))
           (skipn (Z.to_nat (Z.min i (Py.len l))) l).
Proof.
  intros Hi Hj. unfold Py.slice, Py.clamp.
  destruct (Z.ltb_spec i 0); [lia|]. destruct (Z.ltb_spec j 0); [lia|].
  reflexivity.
Qed.

Lemma slice_cons {A} (a : A) (l : list A) (i j : Z) :
  0 <= i -> 0 <= j -> Py.slice (a :: l) (i + 1) (j + 1) = Py.slice l i j.
Proof.
  intros Hi Hj. rewrite !slice_nonneg by lia. rewrite len_cons.
  pose proof (len_nonneg l) as HL.
  replace (Z.min (i + 1) (Py.len l + 1)) with (Z.min i (Py.len l) + 1) by lia.
  replace (Z.min (j + 1) (Py.len l + 1)) with (Z.min j (Py.len l) + 1) by lia.
  replace (Z.to_nat (Z.min i (Py.len l) + 1))
    with (S (Z.to_nat (Z.min i (Py.len l)))) by lia.
  simpl skipn. f_equal. lia.
Qed.

Lemma range_length_two (n : Z) :
  0 <= n -> Py.range_length 0 (n + 2) 2 = Py.range_length 0 n 2 + 1.
Proof.
  intros Hn. unfold Py.range_length. change (0 <? 2) with true. cbv iota.
  destruct (Z.ltb_spec 0 (n + 2)); [|lia].
  destruct (Z.ltb_spec 0 n).
  - replace (n + 2 - 0 - 1) with (n - 0 - 1 + 1 * 2) by lia.
    rewrite Z.div_add by lia. lia.
  - assert (n = 0) by lia. subst. reflexivity.
Qed.

Lemma range_length_nonneg (a b c : Z) : 0 <= Py.range_length a b c.
Proof.
  unfold Py.range_length.
  destruct (Z.ltb_spec 0 c).
  - destruct (Z.ltb_spec a b); [|lia].
    assert (0 <= (b - a - 1) / c) by (apply Z.div_pos; lia). lia.
  - destruct (Z.ltb_spec b a); [|lia].
    destruct (Z.eq_dec c 0) as [->|]; [simpl; rewrite Z.div_0_r; lia|].
    assert (0 <= (a - b - 1) / - c) by (apply Z.div_pos; lia). lia.
Qed.

Lemma pair_ind {A} (P : list A -> Prop) :
  P [] -> (forall a, P [a]) -> (forall a b l, P l -> P (a :: b :: l)) ->
  forall l, P l.
Proof.
  intros H0 H1 H2.
  refine (fix F l := match l with
                     | [] => H0
                     | [a] => H1 a
                     | a :: b :: r => H2 a b r (F r)
                     end).
Qed.

(** The comprehension of [paragraphize] pairs each piece with the mark after
    it and strips the pair. *)
Lemma glue_pairs (l : list str) : glue l = map Py.strip (pairs l).
Proof.
  induction l as [|a|a b l IH] using pair_ind.
  - reflexivity.
  - unfold glue. simpl. now rewrite app_nil_r.
  - unfold glue in *. rewrite !len_cons.
    replace (Py.len l + 1 + 1) with (Py.len l + 2) by lia.
    unfold Py.range_items. rewrite range_length_two by apply len_nonneg.
    pose proof (range_length_nonneg 0 (Py.len l) 2) as Hr.
    replace (Z.to_nat (Py.range_length 0 (Py.len l) 2 + 1))
      with (S (Z.to_nat (Py.range_length 0 (Py.len l) 2))) by lia.
    cbn [seq map]. rewrite <- seq_shift, !map_map. simpl pairs. cbn [map].
    f_equal.
    + rewrite slice_nonneg, !len_cons by lia.
      pose proof (len_nonneg l).
      rewrite !Z.min_l by lia.
      change (Z.to_nat (2 - 0)) with 2%nat. change (Z.to_nat 0) with 0%nat.
      simpl. now rewrite app_nil_r.
    + rewrite <- IH. unfold Py.range_items. rewrite map_map.
      apply map_ext. intros k.
      replace (0 + Z.of_nat (S k) * 2) with (0 + Z.of_nat k * 2 + 1 + 1) by lia.
      replace (0 + Z.of_nat k * 2 + 1 + 1 + 2)
        with (0 + Z.of_nat k * 2 + 2 + 1 + 1) by lia.
      rewrite !slice_cons by lia. reflexivity.
Qed.

Lemma re_split_nonempty (txt : str) : re_split txt <> [].
Proof.
  destruct txt as [|c r]; simpl; [discriminate|].
  destruct (is_delim c); [discriminate|].
  destruct (re_split r); discriminate.
Qed.

Lemma split_sents_nonempty (txt : str) : split_sents txt <> [].
Proof.
  destruct txt as [|c r]; simpl; [discriminate|].
  destruct (is_delim c); [discriminate|].
  destruct (split_sents r); discriminate.
Qed.

Lemma pairs_re_split (txt : str) : pairs (re_split txt) = split_sents txt.
Proof.
  induction txt as [|c r IH]; simpl; [reflexivity|].
  destruct (is_delim c); simpl; [now rewrite IH|].
  rewrite <- IH.
  destruct (re_split r) as [|p [|d ps]]; reflexivity.
Qed.

Lemma sentences_eq (txt : str) :
  sentences txt = map Py.strip (split_sents txt).
Proof. unfold sentences. now rewrite glue_pairs, pairs_re_split. Qed.

(** ** The paragraph formatter *)

Lemma sentences_stripped (txt : str) : Forall stripped (sentences txt).
Proof.
  rewrite sentences_eq. apply Forall_forall. intros s Hs.
  apply in_map_iff in Hs. destruct Hs as (u & <- & _). apply strip_stripped.
Qed.

Lemma flush_stripped (buf : list str) (cur : str) :
  stripped cur -> flush buf cur = buf ++ completed cur.
Proof.
  intros H. unfold flush. rewrite H.
  destruct cur; simpl; [now rewrite app_nil_r|reflexivity].
Qed.

(** The loop of the program, followed by the last flush, computes the
    greedy grouping; the buffer never needs stripping. *)
Lemma loop_greedy (t : Z) (sents : list str) :
  forall buf cur,
    Forall stripped sents -> stripped cur ->
    flush (fst (para_loop t sents (buf, cur))) (snd (para_loop t sents (buf, cur)))
    = buf ++ greedy t cur sents.
Proof.
  induction sents as [|s rest IH]; intros buf cur Hs Hc.
  - simpl. now apply flush_stripped.
  - inversion Hs as [|? ? Hs1 Hs2]; subst.
    unfold para_loop in *. simpl fold_left. simpl greedy.
    rewrite len_app.
    destruct (Z.ltb_spec (Py.len cur + Py.len s) t) as [Hlt|Hge].
    + destruct (Z.leb_spec t (Py.len cur + Py.len s)); [lia|].
      apply IH; [assumption|now apply stripped_app].
    + destruct (Z.leb_spec t (Py.len cur + Py.len s)); [|lia].
      rewrite IH by assumption.
      rewrite flush_stripped by assumption. now rewrite app_assoc.
Qed.

Lemma group_greedy (t : Z) (sents : list str) :
  Forall stripped sents -> group t sents = greedy t [] sents.
Proof.
  intros H. unfold group.
  destruct (para_loop t sents ([], [])) as [buf cur] eqn:L.
  pose proof (loop_greedy t sents [] [] H stripped_nil) as E.
  rewrite L in E. exact E.
Qed.

Lemma paragraphize_greedy (txt : str) (t : Z) :
  paragraphize txt t = greedy t [] (sentences txt).
Proof. apply group_greedy, sentences_stripped. Qed.

Lemma para_loop_snoc (t : Z) (pre : list str) (s : str) (st : list str * str) :
  para_loop t (pre ++ [s]) st = para_step t (para_loop t pre st) s.
Proof. unfold para_loop. now rewrite fold_left_app. Qed.

Lemma greedy_concat (t : Z) (sents : list str) :
  forall cur, concat (greedy t cur sents) = cur ++ concat sents.
Proof.
  induction sents as [|s rest IH]; intros cur; simpl.
  - destruct cur; simpl; now rewrite ?app_nil_r.
  - destruct (t <=? Py.len (cur ++ s)).
    + rewrite concat_app, IH. destruct cur; simpl; now rewrite ?app_nil_r.
    + rewrite IH. now rewrite app_assoc.
Qed.

Lemma greedy_paragraphs (t : Z) (sents : list str) :
  forall cur,
    Forall stripped sents -> stripped cur ->
    Forall (fun p => p <> [] /\ stripped p) (greedy t cur sents).
Proof.
  assert (C : forall cur, stripped cur ->
                Forall (fun p => p <> [] /\ stripped p) (completed cur)).
  { intros [|c r] H; simpl; constructor; [|constructor].
    split; [discriminate|assumption]. }
  induction sents as [|s rest IH]; intros cur Hs Hc; simpl.
  - now apply C.
  - inversion Hs; subst.
    destruct (t <=? Py.len (cur ++ s)).
    + apply Forall_app. split; [now apply C|now apply IH].
    + apply IH; [assumption|now apply stripped_app].
Qed.

(** A sentence at least as long as the target closes the paragraph before
    it and is closed by whatever follows. *)
Lemma greedy_long_sentence (t : Z) (s : str) (post : list str) :
  t <= Py.len s -> s <> [] ->
  forall pre cur,
    greedy t cur (pre ++ s :: post)
    = greedy t cur pre ++ [s] ++ greedy t [] post.
Proof.
  intros Hlen Hne.
  assert (Hpost : greedy t s post = [s] ++ greedy t [] post).
  { destruct post as [|s' rest]; simpl.
    - destruct s; [contradiction|reflexivity].
    - rewrite len_app. pose proof (len_nonneg s').
      destruct (Z.leb_spec t (Py.len s + Py.len s')); [|lia].
      destruct s as [|c r]; [contradiction|]. simpl.
      destruct (t <=? Py.len s'); reflexivity. }
  induction pre as [|a pre IH]; intros cur; simpl.
  - rewrite len_app. pose proof (len_nonneg cur).
    destruct (Z.leb_spec t (Py.len cur + Py.len s)); [|lia].
    now rewrite Hpost.
  - destruct (t <=? Py.len (cur ++ a)).
    + now rewrite IH, app_assoc.
    + apply IH.
Qed.

(** C1: on every input and target, the sentence that follows the sentences
    [pre] is appended to the buffer when the buffer's length plus the
    sentence's length is below the target, and otherwise (a tie included)
    the buffer is flushed and restarted with the sentence; the whole
    formatter is the greedy grouping of its description. *)
Theorem paragraphize_flush_rule (txt : str) (t : Z)
  (pre post buf : list str) (s cur : str) :
  sentences txt = pre ++ s :: post ->
  para_loop t pre ([], []) = (buf, cur) ->
  paragraphize txt t = greedy t [] (sentences txt)
  /\ (Py.len cur + Py.len s < t ->
      para_loop t (pre ++ [s]) ([], []) = (buf, cur ++ s))
  /\ (t <= Py.len cur + Py.len s ->
      para_loop t (pre ++ [s]) ([], []) = (flush buf cur, s)).
Proof.
  intros _ Hpre. split; [apply paragraphize_greedy|].
  rewrite para_loop_snoc, Hpre. unfold para_step.
  split; intros H.
  - destruct (Z.ltb_spec (Py.len cur + Py.len s) t); [reflexivity|lia].
  - destruct (Z.ltb_spec (Py.len cur + Py.len s) t); [lia|reflexivity].
Qed.

Lemma paragraphize_flush_rule_witness :
  paragraphize (lit "第一句話。第二句話。") 10
  = greedy 10 [] (sentences (lit "第一句話。第二句話。"))
  /\ (Py.len (lit "第一句話。") + Py.len (lit "第二句話。") < 10 ->
      para_loop 10 ([lit "第一句話。"] ++ [lit "第二句話。"]) ([], [])
      = ([], lit "第一句話。" ++ lit "第二句話。"))
  /\ (10 <= Py.len (lit "第一句話。") + Py.len (lit "第二句話。") ->
      para_loop 10 ([lit "第一句話。"] ++ [lit "第二句話。"]) ([], [])
      = (flush [] (lit "第一句話。"), lit "第二句話。")).
Proof.
  apply (paragraphize_flush_rule (lit "第一句話。第二句話。") 10
           [lit "第一句話。"] [[]] [] (lit "第二句話。") (lit "第一句話。"));
    vm_compute; reflexivity.
Defined.


(** C9: every paragraph returned is non-empty, is its own stripping, and
    neither starts nor ends with a whitespace character. *)
Theorem paragraphize_paragraphs_clean (txt : str) (t : Z) (p : str) :
  In p (paragraphize txt t) ->
  p <> [] /\ Py.strip p = p
  /\ (forall c r, p = c :: r -> Py.is_space c = false)
  /\ (forall c r, p = r ++ [c] -> Py.is_space c = false).
Proof.
  intros Hin. rewrite paragraphize_greedy in Hin.
  pose proof (greedy_paragraphs t (sentences txt) []
                (sentences_stripped txt) stripped_nil) as F.
  rewrite Forall_forall in F. destruct (F p Hin) as [Hne Hs].
  split; [assumption|]. split; [exact Hs|].
  apply stripped_iff in Hs. destruct Hs as [H1 H2].
  apply no_lead_cases in H1, H2. split; intros c r E.
  - destruct H1 as [->|(c' & r' & E' & Hc)]; [discriminate|]. congruence.
  - subst p. rewrite rev_app_distr in H2. simpl in H2.
    destruct H2 as [H2|(c' & r' & E' & Hc)]; [discriminate|]. congruence.
Qed.

Lemma paragraphize_paragraphs_clean_witness :
  lit "a b。" <> [] /\ Py.strip (lit "a b。") = lit "a b。"
  /\ (forall c r, lit "a b。" = c :: r -> Py.is_space c = false)
  /\ (forall c r, lit "a b。" = r ++ [c] -> Py.is_space c = false).
Proof.
  apply (paragraphize_paragraphs_clean (lit "  a b。 ") 170 (lit "a b。")).
  vm_compute. left. reflexivity.
Defined.

(** C6: a non-empty sentence at least as long as the target is a paragraph
    of its own, between the paragraphs of the sentences before it and those
    of the sentences after it; the empty input has no paragraph. *)
Theorem paragraphize_long_sentence (txt : str) (t : Z) :
  (forall (pre post : list str) (s : str),
      sentences txt = pre ++ s :: post ->
      s <> [] ->
      t <= Py.len s ->
      paragraphize txt t = group t pre ++ [s] ++ group t post)
  /\ paragraphize [] t = [].
Proof.
  split.
  - intros pre post s E Hne Hlen.
    pose proof (sentences_stripped txt) as F. rewrite E in F.
    apply Forall_app in F. destruct F as [Fpre F].
    inversion F as [|? ? Fs Fpost]; subst.
    rewrite paragraphize_greedy, E, !group_greedy by assumption.
    now apply greedy_long_sentence.
  - rewrite paragraphize_greedy.
    replace (sentences []) with [@nil N] by (vm_compute; reflexivity).
    simpl. destruct (t <=? Py.len []); reflexivity.
Qed.

Lemma paragraphize_long_sentence_witness :
  paragraphize (lit "短。這一句話比較長。完") 5
  = group 5 [lit "短。"] ++ [lit "這一句話比較長。"] ++ group 5 [lit "完"]
  /\ paragraphize (lit "這一句話比較長。") 5 = [lit "這一句話比較長。"].
Proof.
  split.
  - apply (proj1 (paragraphize_long_sentence (lit "短。這一句話比較長。完") 5)
             [lit "短。"] [lit "完"] (lit "這一句話比較長。")).
    + vm_compute. reflexivity.
    + discriminate.
    + vm_compute. discriminate.
  - apply (proj1 (paragraphize_long_sentence (lit "這一句話比較長。") 5)
             [] [[]] (lit "這一句話比較長。")).
    + vm_compute. reflexivity.
    + discriminate.
    + vm_compute. discriminate.
Defined.

(** The two end-to-end scenarios of the formatter. *)
Example scenario_fits :
  paragraphize (lit "今天天氣很好。我們去公園散步。") 170
  = [lit "今天天氣很好。我們去公園散步。"].
Proof. vm_compute. reflexivity. Qed.

Example scenario_budget_10 :
  paragraphize (lit "第一句話。第二句話。第三句話。") 10
  = [lit "第一句話。"; lit "第二句話。"; lit "第三句話。"].
Proof. vm_compute. reflexivity. Qed.

(** *** The shape of the sentences *)

Lemma delim_not_space (c : N) : is_delim c = true -> Py.is_space c = false.
Proof.
  unfold is_delim. rewrite !orb_true_iff, !N.eqb_eq.
  intros [[[->| ->]| ->]| ->]; reflexivity.
Qed.

Lemma nodelim_app (a b : str) :
  nodelim (a ++ b) = nodelim a && nodelim b.
Proof. apply forallb_app. Qed.

Lemma nodelim_lstrip (u : str) : nodelim u = true -> nodelim (Py.lstrip u) = true.
Proof.
  induction u as [|c r IH]; simpl; [reflexivity|].
  destruct (Py.is_space c); simpl.
  - intros H. apply andb_true_iff in H. now apply IH.
  - trivial.
Qed.

Lemma nodelim_rev (u : str) : nodelim (rev u) = nodelim u.
Proof.
  induction u as [|c r IH]; simpl; [reflexivity|].
  rewrite nodelim_app, IH. simpl. rewrite andb_true_r. apply andb_comm.
Qed.

Lemma nodelim_strip (u : str) : nodelim u = true -> nodelim (Py.strip u) = true.
Proof.
  intros H. unfold Py.strip, Py.rstrip. rewrite nodelim_rev.
  apply nodelim_lstrip. rewrite nodelim_rev. now apply nodelim_lstrip.
Qed.

Lemma strip_closed (u : str) (d : N) :
  is_delim d = true -> Py.strip (u ++ [d]) = Py.lstrip u ++ [d].
Proof.
  intros Hd. apply delim_not_space in Hd.
  unfold Py.strip. rewrite (lstrip_app_nonspace u [] d Hd).
  unfold Py.rstrip. rewrite rev_app_distr. simpl. rewrite Hd.
  simpl. now rewrite rev_involutive.
Qed.

Lemma closed_sentence_stripped (s : str) : closed_sentence s -> stripped s.
Proof.
  intros (u & d & -> & Hd & _ & Hu). apply delim_not_space in Hd.
  apply stripped_iff. split.
  - apply no_lead_app; [assumption|]. apply no_lead_cases. right.
    now exists d, [].
  - rewrite rev_app_distr. simpl. apply no_lead_cases. right.
    now exists d, (rev u).
Qed.

(** The unstripped sentences: all but the last end with their mark and hold
    no other mark, the last holds none. *)
Lemma split_sents_shape (txt : str) :
  exists body tail,
    split_sents txt = body ++ [tail]
    /\ Forall (fun s => exists u d,
                   s = u ++ [d] /\ is_delim d = true /\ nodelim u = true) body
    /\ nodelim tail = true.
Proof.
  induction txt as [|c r (body & tail & E & Hb & Ht)]; simpl.
  - exists [], []. repeat split; constructor.
  - destruct (is_delim c) eqn:Hc.
    + exists ([c] :: body), tail. rewrite E. repeat split; [|assumption].
      constructor; [|assumption]. now exists [], c.
    + rewrite E. destruct body as [|b body]; simpl.
      * exists [], (c :: tail). repeat split; [constructor|].
        simpl. now rewrite Hc.
      * inversion Hb as [|? ? (u & d & -> & Hd & Hu) Hb']; subst.
        exists (((c :: u) ++ [d]) :: body), tail. repeat split; [|assumption].
        constructor; [|assumption]. exists (c :: u), d. repeat split; trivial.
        simpl. now rewrite Hc.
Qed.

Lemma sentences_canonical (txt : str) : canonical (sentences txt).
Proof.
  rewrite sentences_eq.
  destruct (split_sents_shape txt) as (body & tail & -> & Hb & Ht).
  exists (map Py.strip body), (Py.strip tail). rewrite map_app. simpl.
  repeat split.
  - apply Forall_forall. intros s Hs. apply in_map_iff in Hs.
    destruct Hs as (s0 & <- & Hs0). rewrite Forall_forall in Hb.
    destruct (Hb s0 Hs0) as (u & d & -> & Hd & Hu).
    exists (Py.lstrip u), d. repeat split; trivial.
    + now apply strip_closed.
    + now apply nodelim_lstrip.
    + apply lstrip_no_lead.
  - now apply nodelim_strip.
  - apply strip_stripped.
Qed.

Lemma split_sents_closed (u : str) (d : N) (rest : str) :
  nodelim u = true -> is_delim d = true ->
  split_sents (u ++ d :: rest) = (u ++ [d]) :: split_sents rest.
Proof.
  intros Hu Hd. induction u as [|c r IH]; simpl.
  - now rewrite Hd.
  - simpl in Hu. apply andb_true_iff in Hu. destruct Hu as [Hc Hr].
    apply negb_true_iff in Hc. rewrite Hc, (IH Hr). reflexivity.
Qed.

Lemma split_sents_last (tail : str) :
  nodelim tail = true -> split_sents tail = [tail].
Proof.
  induction tail as [|c r IH]; simpl; [reflexivity|].
  intros H. apply andb_true_iff in H. destruct H as [Hc Hr].
  apply negb_true_iff in Hc. rewrite Hc, (IH Hr). reflexivity.
Qed.

(** Splitting the concatenation of canonical sentences gives them back. *)
Lemma sentences_of_canonical (ss : list str) :
  canonical ss -> sentences (concat ss) = ss.
Proof.
  intros (body & tail & -> & Hb & Ht & Hs). rewrite sentences_eq.
  induction body as [|b body IH]; simpl.
  - rewrite app_nil_r, (split_sents_last _ Ht). simpl. now rewrite Hs.
  - inversion Hb as [|? ? Hc Hb']; subst.
    pose proof (closed_sentence_stripped _ Hc) as Hsb.
    destruct Hc as (u & d & -> & Hd & Hu & _).
    rewrite <- !app_assoc. simpl.
    rewrite (split_sents_closed _ _ _ Hu Hd). simpl.
    rewrite (IH Hb'). now rewrite Hsb.
Qed.

Lemma in_completed (cur p : str) : In p (completed cur) -> p = cur.
Proof. destruct cur; simpl; [contradiction|]. now intros [->|[]]. Qed.

(** Every paragraph is the concatenation of canonical sentences. *)
Lemma greedy_runs (t : Z) (tail : str) (body : list str) :
  last_sentence tail ->
  forall ms cur,
    Forall closed_sentence body -> Forall closed_sentence ms ->
    cur = concat ms ->
    forall p, In p (greedy t cur (body ++ [tail])) ->
              exists ss, canonical ss /\ concat ss = p.
Proof.
  intros Ht.
  assert (Hnil : last_sentence []) by (split; reflexivity).
  assert (Hcur : forall ms, Forall closed_sentence ms ->
                   exists ss, canonical ss /\ concat ss = concat ms).
  { intros ms Hms. exists (ms ++ [[]]). split.
    - now exists ms, [].
    - rewrite concat_app. simpl. now rewrite app_nil_r. }
  induction body as [|m body IH]; intros ms cur Hb Hms -> p Hin.
  - simpl in Hin. destruct (t <=? Py.len (concat ms ++ tail)).
    + apply in_app_or in Hin. destruct Hin as [Hin|Hin];
        apply in_completed in Hin; subst p.
      * now apply Hcur.
      * exists [tail]. split; [|simpl; now rewrite app_nil_r].
        now exists [], tail.
    + apply in_completed in Hin. subst p. exists (ms ++ [tail]). split.
      * now exists ms, tail.
      * rewrite concat_app. simpl. now rewrite app_nil_r.
  - inversion Hb as [|? ? Hm Hb']; subst. simpl in Hin.
    destruct (t <=? Py.len (concat ms ++ m)).
    + apply in_app_or in Hin. destruct Hin as [Hin|Hin].
      * apply in_completed in Hin. subst p. now apply Hcur.
      * apply (IH [m] m Hb'); trivial.
        -- now constructor.
        -- simpl. now rewrite app_nil_r.
    + apply (IH (ms ++ [m]) (concat ms ++ m) Hb'); trivial.
      * apply Forall_app. split; [assumption|now constructor].
      * rewrite concat_app. simpl. now rewrite app_nil_r.
Qed.

Lemma greedy_fits (t : Z) (ss : list str) :
  forall cur,
    Py.len cur + Py.len (concat ss) < t ->
    greedy t cur ss = completed (cur ++ concat ss).
Proof.
  induction ss as [|s rest IH]; intros cur H; simpl in *.
  - now rewrite app_nil_r.
  - rewrite len_app in *. pose proof (len_nonneg (concat rest)).
    destruct (Z.leb_spec t (Py.len cur + Py.len s)); [lia|].
    rewrite IH by (rewrite len_app; lia). now rewrite app_assoc.
Qed.

(** C5: a paragraph the formatter produced, shorter than the target, is
    returned as the only paragraph when it is formatted again with the same
    target. *)
Theorem paragraphize_idempotent (txt : str) (t : Z) (p : str) :
  In p (paragraphize txt t) ->
  Py.len p < t ->
  paragraphize p t = [p].
Proof.
  intros Hin Hlen. rewrite paragraphize_greedy in Hin.
  pose proof (greedy_paragraphs t (sentences txt) []
                (sentences_stripped txt) stripped_nil) as F.
  rewrite Forall_forall in F. destruct (F p Hin) as [Hne _].
  destruct (sentences_canonical txt) as (body & tail & E & Hb & Ht).
  rewrite E in Hin.
  destruct (greedy_runs t tail body Ht [] [] Hb (Forall_nil _) eq_refl p Hin)
    as (ss & Hss & <-).
  rewrite paragraphize_greedy, (sentences_of_canonical ss Hss).
  rewrite greedy_fits by (simpl; exact Hlen). simpl.
  destruct (concat ss); [contradiction|reflexivity].
Qed.

Lemma paragraphize_idempotent_witness :
  paragraphize (lit "第一句話。第二句話。") 12 = [lit "第一句話。第二句話。"].
Proof.
  apply (paragraphize_idempotent (lit "第一句話。 第二句話。 第三句話。") 12).
  - vm_compute. left. reflexivity.
  - vm_compute. reflexivity.
Defined.

(** *** Where the sentences end *)

Lemma two_succ (k : nat) : (2 * S k = S (S (2 * k)))%nat.
Proof. lia. Qed.

Lemma pieces_delim (a : N) (r : str) (k : nat) :
  is_delim a = true ->
  concat (firstn (2 * S k) (re_split (a :: r)))
  = a :: concat (firstn (2 * k) (re_split r)).
Proof. intros Ha. rewrite two_succ. simpl. now rewrite Ha. Qed.

Lemma pieces_other (a : N) (r : str) (k : nat) :
  is_delim a = false ->
  concat (firstn (2 * S k) (re_split (a :: r)))
  = a :: concat (firstn (2 * S k) (re_split r)).
Proof.
  intros Ha. rewrite two_succ. simpl re_split. rewrite Ha.
  destruct (re_split r) as [|p ps] eqn:E; [now apply re_split_nonempty in E|].
  reflexivity.
Qed.

Lemma pieces_nonempty (r : str) (k : nat) :
  r <> [] -> concat (firstn (2 * S k) (re_split r)) <> [].
Proof.
  destruct r as [|d r]; [contradiction|]. intros _.
  destruct (is_delim d) eqn:Hd.
  - now rewrite pieces_delim.
  - now rewrite pieces_other.
Qed.

Lemma boundary_iff_delim (txt : str) :
  forall n c,
    nth_error txt n = Some c -> (S n < List.length txt)%nat ->
    (boundary_after txt n <-> is_delim c = true).
Proof.
  unfold boundary_after.
  induction txt as [|a r IH]; intros n c Hn Hlen; [simpl in Hlen; lia|].
  simpl in Hlen.
  destruct (is_delim a) eqn:Ha; destruct n as [|m]; simpl in Hn.
  - injection Hn as <-. split; [intros _; exact Ha|]. intros _.
    exists 1%nat. now rewrite pieces_delim.
  - rewrite <- (IH m c Hn) by lia. split; intros [k Hk].
    + destruct k as [|k]; [discriminate|].
      rewrite pieces_delim in Hk by assumption.
      injection Hk as Hk. now exists k.
    + exists (S k). rewrite pieces_delim by assumption.
      simpl. now f_equal.
  - injection Hn as <-. split; [|congruence]. intros [k Hk].
    destruct k as [|k]; [discriminate|].
    rewrite pieces_other in Hk by assumption. injection Hk as Hk.
    apply pieces_nonempty in Hk; [contradiction|].
    destruct r; [simpl in Hlen; lia|discriminate].
  - rewrite <- (IH m c Hn) by lia. split; intros [k Hk].
    + destruct k as [|k]; [discriminate|].
      rewrite pieces_other in Hk by assumption.
      injection Hk as Hk. now exists (S k).
    + destruct k as [|k].
      * destruct r; [simpl in Hlen; lia|discriminate].
      * exists (S k). rewrite pieces_other by assumption.
        simpl. now f_equal.
Qed.

(** C2, as the program has it: inside the text, a sentence ends right after
    a character exactly when the character is one of the four full-width
    marks of the pattern (ideographic full stop, full-width exclamation
    mark, question mark and semicolon); every sentence but the last ends
    with its mark and holds no other. *)
Theorem sentences_split_at_fullwidth_marks (txt : str) (n : nat) (c : N) :
  nth_error txt n = Some c ->
  (S n < List.length txt)%nat ->
  (boundary_after txt n
   <-> (c = 0x3002 \/ c = 0xFF01 \/ c = 0xFF1F \/ c = 0xFF1B)%N)
  /\ canonical (sentences txt).
Proof.
  intros Hn Hlen. split; [|apply sentences_canonical].
  rewrite (boundary_iff_delim txt n c Hn Hlen).
  unfold is_delim. rewrite !orb_true_iff, !N.eqb_eq. tauto.
Qed.

Lemma sentences_split_at_fullwidth_marks_witness :
  (boundary_after (lit "好。Hi. Bye") 1
   <-> (0x3002 = 0x3002 \/ 0x3002 = 0xFF01 \/ 0x3002 = 0xFF1F
        \/ 0x3002 = 0xFF1B)%N)
  /\ canonical (sentences (lit "好。Hi. Bye")).
Proof.
  apply (sentences_split_at_fullwidth_marks (lit "好。Hi. Bye") 1 0x3002%N).
  - vm_compute. reflexivity.
  - vm_compute. lia.
Defined.

(** The ASCII full stop is not a mark of the pattern: the text is one
    sentence and no sentence ends after the stop. *)
Lemma ascii_full_stop_does_not_split :
  nth_error (lit "Hi. Bye") 2 = Some 0x2E%N
  /\ ~ boundary_after (lit "Hi. Bye") 2
  /\ sentences (lit "Hi. Bye") = [lit "Hi. Bye"].
Proof.
  split; [reflexivity|]. split; [|vm_compute; reflexivity].
  intros H.
  apply (boundary_iff_delim (lit "Hi. Bye") 2 0x2E%N) in H;
    [discriminate H|reflexivity|vm_compute; lia].
Qed.

(** ** The chunker *)

Lemma firstn_add {A} (a b : nat) (l : list A) :
  firstn (a + b) l = firstn a l ++ firstn b (skipn a l).
Proof.
  revert l. induction a as [|a IH]; intros l; [reflexivity|].
  destruct l as [|x l]; simpl.
  - now rewrite firstn_nil.
  - now rewrite IH.
Qed.

Lemma firstn_min_length {A} (n : nat) (l : list A) :
  firstn (Nat.min n (List.length l)) l = firstn n l.
Proof.
  destruct (Nat.le_ge_cases n (List.length l)).
  - now rewrite Nat.min_l.
  - rewrite Nat.min_r by assumption. now rewrite !firstn_all2 by lia.
Qed.

(** A window that starts inside the audio is the next [d] milliseconds of
    it, or what is left. *)
Lemma audio_slice_window (audio : AudioSegment) (i d : Z) :
  0 <= i < Py.len audio -> 0 < d ->
  audio_slice audio i (i + d)
  = firstn (Z.to_nat d) (skipn (Z.to_nat i) audio).
Proof.
  intros Hi Hd. unfold audio_slice, parse_position.
  rewrite (Z.min_l i) by lia.
  destruct (Z.ltb_spec i 0); [lia|].
  destruct (Z.ltb_spec (Z.min (i + d) (Py.len audio)) 0); [lia|].
  rewrite slice_nonneg by lia.
  rewrite (Z.min_l i) by lia.
  rewrite <- (firstn_min_length (Z.to_nat d)). f_equal.
  rewrite length_skipn. unfold Py.len in *. lia.
Qed.

Lemma window_len (audio : AudioSegment) (i d : Z) :
  0 <= i <= Py.len audio -> 0 <= d ->
  Py.len (firstn (Z.to_nat d) (skipn (Z.to_nat i) audio))
  = Z.min d (Py.len audio - i).
Proof.
  intros Hi Hd. unfold Py.len in *.
  rewrite length_firstn, length_skipn. lia.
Qed.

Lemma ceil_div_bounds (L d : Z) :
  0 <= L -> 0 < d ->
  0 <= ceil_div L d /\ (ceil_div L d - 1) * d < L + (if L =? 0 then 1 else 0)
  /\ L <= ceil_div L d * d /\ (L = 0 -> ceil_div L d = 0).
Proof.
  intros HL Hd. unfold ceil_div.
  pose proof (Z.div_mod (L + d - 1) d ltac:(lia)) as E.
  pose proof (Z.mod_pos_bound (L + d - 1) d Hd) as B.
  repeat split.
  - apply Z.div_pos; lia.
  - destruct (Z.eqb_spec L 0); nia.
  - nia.
  - intros ->. apply Z.div_small. lia.
Qed.

Lemma range_items_windows (L d : Z) :
  0 <= L -> 0 < d ->
  Py.range_items 0 L d
  = map (fun k => Z.of_nat k * d) (seq 0 (Z.to_nat (ceil_div L d))).
Proof.
  intros HL Hd. unfold Py.range_items.
  assert (E : Py.range_length 0 L d = ceil_div L d).
  { unfold Py.range_length, ceil_div.
    destruct (Z.ltb_spec 0 d); [|lia].
    destruct (Z.ltb_spec 0 L).
    - replace (L + d - 1) with (L - 0 - 1 + 1 * d) by lia.
      now rewrite Z.div_add by lia.
    - assert (L = 0) by lia. subst. symmetry. apply Z.div_small. lia. }
  rewrite E. apply map_ext. intros k. lia.
Qed.

Lemma concat_windows {A} (d n : nat) (l : list A) :
  concat (map (fun k => firstn d (skipn (k * d) l)) (seq 0 n))
  = firstn (n * d) l.
Proof.
  induction n as [|n IH]; [reflexivity|].
  rewrite seq_S, map_app, concat_app, IH. simpl.
  rewrite app_nil_r, <- firstn_add. f_equal. lia.
Qed.

Lemma export_parts_run (wav : Path) (step : Z)
  (windows : list (Z * AudioSegment)) :
  forall w,
    exists w',
      export_parts wav step windows w
      = (w', inr (map (fun iw => part_path wav (fst iw) step) windows))
      /\ fs w' = rev (map (fun iw => (part_path wav (fst iw) step,
                                      FWav (snd iw) export_parameters))
                          windows) ++ fs w.
Proof.
  induction windows as [|[i seg] rest IH]; intros w.
  - exists w. split; reflexivity.
  - destruct (IH (mkWorld ((part_path wav i step, FWav seg export_parameters)
                             :: fs w) (converter w) (ui w) (running w)))
      as (w' & E & F).
    exists w'. simpl export_parts. unfold bind, write_file. cbv beta iota.
    rewrite E. split; [reflexivity|].
    rewrite F. simpl. now rewrite <- app_assoc.
Qed.

(** A zero duration is refused, a negative one yields no chunk. *)
Example chunk_windows_zero : chunk_windows [3; 1; 4] 0 = None.
Proof. reflexivity. Qed.

Example chunk_windows_negative : chunk_windows [3; 1; 4] (-1) = Some [].
Proof. reflexivity. Qed.

(** Two and a half minutes of audio in chunks of one minute. *)
Example chunk_windows_150s :
  option_map (map (fun w => (fst w, Py.len (snd w))))
             (chunk_windows (repeat 0 (Z.to_nat 150000)) 1)
  = Some [(0, 60000); (60000, 60000); (120000, 30000)].
Proof. vm_compute. reflexivity. Qed.

(** ** Paths *)

Lemma split_slash_noslash (s : str) :
  Forall (fun x => noslash x = true) (split_slash s).
Proof.
  induction s as [|c r IH]; simpl.
  - now constructor.
  - destruct (c =? slash)%N eqn:E.
    + now constructor.
    + destruct (split_slash r) as [|p ps]; [now constructor; simpl; rewrite ?E|].
      inversion IH; subst. constructor; [|assumption].
      simpl. now rewrite E.
Qed.

Lemma split_slash_single (x : str) : noslash x = true -> split_slash x = [x].
Proof.
  induction x as [|c r IH]; simpl; [reflexivity|].
  intros H. apply andb_true_iff in H. destruct H as [Hc Hr].
  apply negb_true_iff in Hc. rewrite Hc, (IH Hr). reflexivity.
Qed.

(** A component of a parsed path, parsed again, is the relative path with
    that one component. *)
Lemma path_of_component (s x : str) :
  In x (names (path_of_str s)) -> path_of_str x = mkPath [] [x].
Proof.
  unfold path_of_str at 1. simpl names. intros H.
  apply filter_In in H. destruct H as [Hin Hk].
  apply andb_true_iff in Hk. destruct Hk as [Ht Hd].
  pose proof (split_slash_noslash s) as F. rewrite Forall_forall in F.
  pose proof (F x Hin) as Hx. unfold path_of_str.
  rewrite (split_slash_single x Hx). simpl filter. rewrite Ht, Hd. simpl.
  f_equal.
  destruct x as [|a [|b [|c r]]]; [discriminate| | |]; simpl in Hx;
    apply andb_true_iff in Hx; destruct Hx as [Ha _];
    apply negb_true_iff in Ha; now rewrite Ha.
Qed.

Lemma last_in {A} (l : list A) (d : A) : l <> [] -> In (last l d) l.
Proof.
  induction l as [|a l IH]; [contradiction|]. intros _.
  destruct l as [|b l]; [now left|]. right. apply IH. discriminate.
Qed.

Lemma path_of_name (s : str) :
  path_of_str (name (path_of_str s))
  = mkPath [] (last_component (path_of_str s)).
Proof.
  unfold last_component, name.
  destruct (names (path_of_str s)) as [|a l] eqn:E; [reflexivity|].
  apply (path_of_component s). rewrite E. apply last_in. discriminate.
Qed.

(** A relative input is resolved to its last component in the base
    directory, whatever directories it names. *)
Lemma resolve_relative (base : Path) (input : str) :
  is_absolute (path_of_str input) = false ->
  resolve_input base input
  = mkPath (root base) (names base ++ last_component (path_of_str input)).
Proof.
  intros H. unfold resolve_input. rewrite H. simpl.
  unfold div. rewrite path_of_name. reflexivity.
Qed.

Lemma join_last_nonempty (sep x : str) (l : list str) :
  Py.truthy x = true -> Py.truthy (Py.join sep (l ++ [x])) = true.
Proof.
  intros Hx. induction l as [|a l IH]; simpl; [assumption|].
  destruct (l ++ [x]) as [|b m] eqn:E; [now destruct l|].
  destruct a; [|reflexivity]. simpl.
  destruct sep; [|reflexivity]. exact IH.
Qed.

Lemma str_of_path_div_name (base : Path) (x : str) :
  Py.truthy x = true ->
  Py.truthy (str_of_path (mkPath (root base) (names base ++ [x]))) = true.
Proof.
  intros Hx. unfold str_of_path. simpl.
  pose proof (join_last_nonempty [slash] x (names base) Hx) as J.
  destruct (root base); [|destruct (names base ++ [x]); reflexivity].
  destruct (names base ++ [x]) eqn:E; [now destruct (names base)|].
  exact J.
Qed.

(** ** The pipeline *)

Lemma bind_ok {A B} (m : M A) (k : A -> M B) (w w' : World) (b : B) :
  bind m k w = (w', inr b) ->
  exists a w1, m w = (w1, inr a) /\ k a w1 = (w', inr b).
Proof.
  unfold bind. destruct (m w) as [w1 [e|a]]; [discriminate|].
  intros H. now exists a, w1.
Qed.

Lemma bind_raise {A B} (m : M A) (k : A -> M B) (w w1 : World) (e : exn) :
  m w = (w1, inl e) -> bind m k w = (w1, inl e).
Proof. unfold bind. now intros ->. Qed.

Lemma emit_ok (e : ui_event) (w w' : World) (u : unit) :
  emit e w = (w', inr u) -> fs w' = fs w.
Proof. unfold emit. now intros [= <- _]. Qed.

Lemma transcribe_ok (env : Env) (m : str) (p : Params) (l : option str)
  (part : Path) (w w' : World) (text : str) :
  transcribe env m p l part w = (w', inr text) ->
  w' = w
  /\ exists f segs,
      lookup part (fs w) = Some f
      /\ recognise env m f l (vad_ms p) (beam p) (cond_prev p) = inr segs
      /\ text = concat segs.
Proof.
  unfold transcribe. destruct (lookup part (fs w)) as [f|]; [|discriminate].
  destruct (recognise env m f l (vad_ms p) (beam p) (cond_prev p)) as [e|segs]
    eqn:R; [discriminate|].
  intros [= <- <-]. split; [reflexivity|]. now exists f, segs.
Qed.

(** The transcription loop leaves the files alone and yields one fragment
    per part, in the order of the parts. *)
Lemma transcribe_parts_ok (env : Env) (m : str) (p : Params)
  (l : option str) (total : Z) (parts : list Path) :
  forall idx w w' texts,
    transcribe_parts env m p l total idx parts w = (w', inr texts) ->
    fs w' = fs w
    /\ Forall2 (fun part text =>
                  exists f segs,
                    lookup part (fs w) = Some f
                    /\ recognise env m f l (vad_ms p) (beam p) (cond_prev p)
                       = inr segs
                    /\ text = concat segs) parts texts.
Proof.
  induction parts as [|part rest IH]; intros idx w w' texts H; simpl in H.
  - injection H as <- <-. split; [reflexivity|constructor].
  - apply bind_ok in H. destruct H as (u1 & w1 & H1 & H).
    apply bind_ok in H. destruct H as (piece & w2 & H2 & H).
    apply bind_ok in H. destruct H as (u3 & w3 & H3 & H).
    apply bind_ok in H. destruct H as (rest_texts & w4 & H4 & H).
    injection H as <- <-.
    apply emit_ok in H1. apply transcribe_ok in H2. destruct H2 as [-> H2].
    apply emit_ok in H3. apply IH in H4. destruct H4 as [H4 F].
    split; [congruence|]. constructor.
    + now rewrite <- H1.
    + now rewrite <- H1, <- H3.
Qed.

Lemma export_parts_ok (wav : Path) (step : Z) (windows : list (Z * AudioSegment)) :
  forall w w' parts,
    export_parts wav step windows w = (w', inr parts) ->
    parts = map (fun iw => part_path wav (fst iw) step) windows.
Proof.
  induction windows as [|[i seg] rest IH]; intros w w' parts H; simpl in H.
  - now injection H as <- <-.
  - apply bind_ok in H. destruct H as (u1 & w1 & H1 & H).
    apply bind_ok in H. destruct H as (ps & w2 & H2 & H).
    injection H as <- <-. simpl. f_equal. exact (IH _ _ _ H2).
Qed.


Lemma chunk_wav_ok (env : Env) (wav : Path) (mins : Z) (w w' : World)
  (parts : list Path) :
  chunk_wav env wav mins w = (w', inr parts) ->
  exists audio windows,
    chunk_windows audio mins = Some windows
    /\ parts = map (fun iw => part_path wav (fst iw) (mins * 60 * 1000)) windows.
Proof.
  unfold chunk_wav. intros H.
  apply bind_ok in H. destruct H as (audio & w1 & H1 & H).
  destruct (chunk_windows audio mins) as [windows|] eqn:C; [|discriminate].
  apply bind_ok in H. destruct H as (ps & w2 & H2 & H).
  apply bind_ok in H. destruct H as (u3 & w3 & H3 & H).
  injection H as _ <-. exists audio, windows. split; [exact C|].
  exact (export_parts_ok _ _ _ _ _ _ H2).
Qed.

Lemma WhisperModel_ok (env : Env) (name m : str) (w w' : World) :
  WhisperModel env name w = (w', inr m) -> m = name /\ w' = w.
Proof.
  unfold WhisperModel. destruct (load_model env name); [discriminate|].
  now intros [= <- <-].
Qed.

(** *** The converter *)

Lemma ensure_ffmpeg_missing (env : Env) (base : Path) (w : World) :
  path_exists env (div base (lit "ffmpeg.exe")) w = false ->
  which env (lit "ffmpeg") = None ->
  which env (lit "ffmpeg.exe") = None ->
  ensure_ffmpeg env base w = (w, inl (RuntimeError ffmpeg_missing)).
Proof. intros H1 H2 H3. unfold ensure_ffmpeg. now rewrite H1, H2, H3. Qed.

(** C7: the converter is looked for as [ffmpeg.exe] in the base directory,
    then on the search path as [ffmpeg], then as [ffmpeg.exe], and the first
    one found is returned; when none is found the error names both remedies
    (the program's folder, the search path), and a job run in that state
    writes no file, shows the error and ends not running. *)
Theorem ensure_ffmpeg_resolution (env : Env) (base : Path) (w : World) :
  let local := div base (lit "ffmpeg.exe") in
  (path_exists env local w = true ->
   snd (ensure_ffmpeg env base w) = inr (str_of_path local))
  /\ (forall found,
        path_exists env local w = false ->
        which env (lit "ffmpeg") = Some found -> Py.truthy found = true ->
        snd (ensure_ffmpeg env base w) = inr found)
  /\ (forall found,
        path_exists env local w = false ->
        which env (lit "ffmpeg") = None ->
        which env (lit "ffmpeg.exe") = Some found -> Py.truthy found = true ->
        snd (ensure_ffmpeg env base w) = inr found)
  /\ (path_exists env local w = false ->
      which env (lit "ffmpeg") = None ->
      which env (lit "ffmpeg.exe") = None ->
      ensure_ffmpeg env base w = (w, inl (RuntimeError ffmpeg_missing))
      /\ contains (lit "ffmpeg.exe 放在本程式同資料夾") ffmpeg_missing = true
      /\ contains (lit "把 ffmpeg 加到 PATH") ffmpeg_missing = true
      /\ forall p,
          fs (run_pipeline env base p w) = fs w
          /\ hd_error (ui (run_pipeline env base p w))
             = Some (UiShowError (RuntimeError ffmpeg_missing))
          /\ running (run_pipeline env base p w) = false).
Proof.
  intros local.
  split; [|split; [|split]].
  - unfold ensure_ffmpeg. fold local. intros ->.
    assert (T : Py.truthy (str_of_path local) = true).
    { unfold local, div.
      replace (path_of_str (lit "ffmpeg.exe"))
        with (mkPath [] [lit "ffmpeg.exe"]) by (vm_compute; reflexivity).
      unfold path_join. simpl. now apply str_of_path_div_name. }
    rewrite T. reflexivity.
  - unfold ensure_ffmpeg. fold local. intros found -> -> T.
    simpl. now rewrite !T.
  - unfold ensure_ffmpeg. fold local. intros found -> -> -> T.
    simpl. now rewrite T.
  - intros H1 H2 H3.
    pose proof (ensure_ffmpeg_missing env base w H1 H2 H3) as E.
    split; [exact E|]. split; [vm_compute; reflexivity|].
    split; [vm_compute; reflexivity|].
    intros p. unfold run_pipeline, pipeline_body.
    rewrite (bind_raise _ _ _ _ _ E). repeat split.
Qed.

Lemma ensure_ffmpeg_resolution_witness :
  ensure_ffmpeg bare_env demo_base demo_world
  = (demo_world, inl (RuntimeError ffmpeg_missing))
  /\ contains (lit "ffmpeg.exe 放在本程式同資料夾") ffmpeg_missing = true
  /\ contains (lit "把 ffmpeg 加到 PATH") ffmpeg_missing = true
  /\ forall p,
      fs (run_pipeline bare_env demo_base p demo_world) = fs demo_world
      /\ hd_error (ui (run_pipeline bare_env demo_base p demo_world))
         = Some (UiShowError (RuntimeError ffmpeg_missing))
      /\ running (run_pipeline bare_env demo_base p demo_world) = false.
Proof.
  apply (ensure_ffmpeg_resolution bare_env demo_base demo_world);
    vm_compute; reflexivity.
Defined.

(** The converter next to the program wins over the search path. *)
Example ensure_ffmpeg_local :
  snd (ensure_ffmpeg demo_env demo_base demo_world)
  = inr (lit "/app/ffmpeg.exe").
Proof. vm_compute. reflexivity. Qed.

(** *** The start of a job *)

(** C10: a press of the start button with a non-blank input that is not an
    absolute path resolves the input to its last component inside the base
    directory, whatever directories the input names; the existence test is
    made on that path: when it fails the press reports the path as not
    found, leaves the form not running and starts no worker, and when it
    succeeds the job is started on the resolved path. *)
Theorem on_start_resolves_relative (env : Env) (base : Path) (form : Form)
  (w : World) :
  running w = false ->
  Py.truthy (Py.strip (mp4_var form)) = true ->
  is_absolute (path_of_str (Py.strip (mp4_var form))) = false ->
  let resolved :=
    mkPath (root base)
           (names base
            ++ last_component (path_of_str (Py.strip (mp4_var form)))) in
  resolve_input base (Py.strip (mp4_var form)) = resolved
  /\ (path_exists env resolved w = false ->
      snd (on_start env base form w) = InputNotFound resolved
      /\ running (fst (on_start env base form w)) = false
      /\ fs (job env base form w) = fs w
      /\ ui (job env base form w) = UiErrorNotFound resolved :: ui w)
  /\ (path_exists env resolved w = true ->
      snd (on_start env base form w)
      = Started (mkParams resolved (minutes_var form) (model_var form)
                          (language_var form) (vad_ms_var form)
                          (beam_var form) (cond_prev_var form)
                          (paragraph_max_var form))
      /\ running (fst (on_start env base form w)) = true).
Proof.
  intros Hrun Hin Habs resolved.
  pose proof (resolve_relative base _ Habs) as R. fold resolved in R.
  split; [exact R|].
  unfold job, on_start. rewrite Hrun, Hin, R. simpl negb at 1. cbv iota.
  split; intros ->; simpl; repeat split; exact Hrun.
Qed.

Lemma on_start_resolves_relative_witness :
  resolve_input demo_base (Py.strip (mp4_var demo_form))
  = mkPath [slash] [lit "app"; lit "talk.mp4"]
  /\ (path_exists bare_env (mkPath [slash] [lit "app"; lit "talk.mp4"])
                  demo_world = false ->
      snd (on_start bare_env demo_base demo_form demo_world)
      = InputNotFound (mkPath [slash] [lit "app"; lit "talk.mp4"])
      /\ running (fst (on_start bare_env demo_base demo_form demo_world))
         = false
      /\ fs (job bare_env demo_base demo_form demo_world) = fs demo_world
      /\ ui (job bare_env demo_base demo_form demo_world)
         = UiErrorNotFound (mkPath [slash] [lit "app"; lit "talk.mp4"])
             :: ui demo_world)
  /\ (path_exists bare_env (mkPath [slash] [lit "app"; lit "talk.mp4"])
                  demo_world = true ->
      snd (on_start bare_env demo_base demo_form demo_world)
      = Started (mkParams (mkPath [slash] [lit "app"; lit "talk.mp4"])
                          (minutes_var demo_form) (model_var demo_form)
                          (language_var demo_form) (vad_ms_var demo_form)
                          (beam_var demo_form) (cond_prev_var demo_form)
                          (paragraph_max_var demo_form))
      /\ running (fst (on_start bare_env demo_base demo_form demo_world))
         = true).
Proof.
  apply (on_start_resolves_relative bare_env demo_base demo_form demo_world);
    vm_compute; reflexivity.
Defined.


(** * Further properties of the program *)

(** ** The formatter: budget, edge cases, counts *)

Lemma greedy_single (t : Z) (s : str) : greedy t [] [s] = completed s.
Proof. simpl. destruct (t <=? Py.len s); reflexivity. Qed.

Lemma sentences_nodelim (txt : str) :
  nodelim txt = true -> sentences txt = [Py.strip txt].
Proof. intros H. now rewrite sentences_eq, (split_sents_last _ H). Qed.

Lemma lstrip_blank (s : str) : blank s = true -> Py.lstrip s = [].
Proof.
  induction s as [|c r IH]; simpl; [reflexivity|].
  intros H. apply andb_true_iff in H. destruct H as [Hc Hr].
  rewrite Hc. now apply IH.
Qed.

Lemma strip_blank (s : str) : blank s = true -> Py.strip s = [].
Proof. intros H. unfold Py.strip. now rewrite (lstrip_blank s H). Qed.

Lemma blank_nodelim (s : str) : blank s = true -> nodelim s = true.
Proof.
  induction s as [|c r IH]; simpl; [reflexivity|].
  intros H. apply andb_true_iff in H. destruct H as [Hc Hr].
  rewrite (IH Hr), andb_true_r.
  destruct (is_delim c) eqn:D; [|reflexivity].
  apply delim_not_space in D. congruence.
Qed.

(** A paragraph that is not a single sentence of the input is shorter than
    the target. *)
Lemma greedy_budget (t : Z) (allowed : list str) (sents : list str) :
  forall cur,
    (cur = [] \/ Py.len cur < t \/ In cur allowed) ->
    incl sents allowed ->
    forall p, In p (greedy t cur sents) -> Py.len p < t \/ In p allowed.
Proof.
  induction sents as [|s rest IH]; intros cur Hc Hs p Hin; simpl in Hin.
  - apply in_completed in Hin as E. subst p.
    destruct Hc as [->|[H|H]]; [contradiction|now left|now right].
  - assert (Hs' : incl rest allowed) by (intros x Hx; apply Hs; now right).
    destruct (Z.leb_spec t (Py.len (cur ++ s))) as [Hge|Hlt].
    + apply in_app_or in Hin. destruct Hin as [Hin|Hin].
      * apply in_completed in Hin as E. subst p.
        destruct Hc as [->|[H|H]]; [contradiction|now left|now right].
      * apply (IH s); trivial. right. right. apply Hs. now left.
    + apply (IH (cur ++ s)); trivial. right. now left.
Qed.

(** X1: a paragraph is shorter than the target unless it is, on its own, one
    sentence of the input: only a single long sentence exceeds the budget. *)
Theorem paragraph_within_budget_or_one_sentence (txt : str) (t : Z) (p : str) :
  In p (paragraphize txt t) ->
  Py.len p < t \/ In p (sentences txt).
Proof.
  intros Hin. rewrite paragraphize_greedy in Hin.
  apply (greedy_budget t (sentences txt) (sentences txt) []); trivial.
  - now left.
  - apply incl_refl.
Qed.

Lemma paragraph_within_budget_or_one_sentence_witness :
  Py.len (lit "這一句話比較長。") < 5
  \/ In (lit "這一句話比較長。") (sentences (lit "短。這一句話比較長。完")).
Proof.
  apply (paragraph_within_budget_or_one_sentence
           (lit "短。這一句話比較長。完") 5).
  vm_compute. right. left. reflexivity.
Defined.

(** X2: a text without any mark of the pattern is never split, whatever the
    target: the result is the stripped text as one paragraph, or no
    paragraph when the text is blank. *)
Theorem paragraphize_without_marks (txt : str) (t : Z) :
  nodelim txt = true ->
  paragraphize txt t = completed (Py.strip txt).
Proof.
  intros H. rewrite paragraphize_greedy, (sentences_nodelim _ H).
  apply greedy_single.
Qed.

Lemma paragraphize_without_marks_witness :
  paragraphize (lit " Hello there. How are you? Fine! ") 10
  = completed (Py.strip (lit " Hello there. How are you? Fine! ")).
Proof.
  apply (paragraphize_without_marks (lit " Hello there. How are you? Fine! ") 10).
  vm_compute. reflexivity.
Defined.

(** X3: a text of whitespace only yields no paragraph. *)
Theorem paragraphize_blank (txt : str) (t : Z) :
  blank txt = true -> paragraphize txt t = [].
Proof.
  intros H.
  rewrite paragraphize_greedy, (sentences_nodelim _ (blank_nodelim _ H)).
  rewrite greedy_single, (strip_blank _ H). reflexivity.
Qed.

Lemma paragraphize_blank_witness :
  paragraphize [0x20; 0x0A; 0x3000; 0x09]%N 170 = [].
Proof.
  apply (paragraphize_blank [0x20; 0x0A; 0x3000; 0x09]%N 170).
  vm_compute. reflexivity.
Defined.



Lemma split_sents_concat (txt : str) : concat (split_sents txt) = txt.
Proof.
  induction txt as [|c r IH]; simpl; [reflexivity|].
  destruct (is_delim c); simpl; [now rewrite IH|].
  destruct (split_sents r) as [|p ps] eqn:E; [now apply split_sents_nonempty in E|].
  simpl in *. now rewrite IH.
Qed.





(** X5: formatting the paragraphs rejoined, with the same target, gives the
    same paragraphs again. *)
Theorem paragraphize_reformat (txt : str) (t : Z) :
  paragraphize (concat (paragraphize txt t)) t = paragraphize txt t.
Proof.
  rewrite (paragraphize_greedy txt t), greedy_concat. simpl.
  rewrite paragraphize_greedy.
  now rewrite (sentences_of_canonical _ (sentences_canonical txt)).
Qed.

Lemma re_split_concat (txt : str) : concat (re_split txt) = txt.
Proof.
  induction txt as [|c r IH]; simpl; [reflexivity|].
  destruct (is_delim c); simpl; [now rewrite IH|].
  destruct (re_split r) as [|p ps] eqn:E; [now apply re_split_nonempty in E|].
  simpl in *. now rewrite IH.
Qed.

Lemma re_split_length (txt : str) :
  List.length (re_split txt) = (2 * count_marks txt + 1)%nat.
Proof.
  unfold count_marks. induction txt as [|c r IH]; simpl; [reflexivity|].
  destruct (is_delim c); simpl; [rewrite IH; lia|].
  destruct (re_split r) as [|p ps] eqn:E; [now apply re_split_nonempty in E|].
  simpl in *. exact IH.
Qed.

Lemma split_sents_length (txt : str) :
  List.length (split_sents txt) = S (count_marks txt).
Proof.
  unfold count_marks. induction txt as [|c r IH]; simpl; [reflexivity|].
  destruct (is_delim c); simpl; [now rewrite IH|].
  destruct (split_sents r) as [|p ps] eqn:E; [now apply split_sents_nonempty in E|].
  simpl in *. exact IH.
Qed.

Lemma greedy_length (t : Z) (sents : list str) :
  forall cur,
    (List.length (greedy t cur sents)
     <= List.length sents + List.length (completed cur))%nat.
Proof.
  induction sents as [|s rest IH]; intros cur; simpl; [lia|].
  destruct (t <=? Py.len (cur ++ s)).
  - rewrite length_app. pose proof (IH s).
    assert (List.length (completed s) <= 1)%nat by (destruct s; simpl; lia).
    lia.
  - pose proof (IH (cur ++ s)).
    assert (List.length (completed (cur ++ s)) <= 1)%nat
      by (destruct (cur ++ s); simpl; lia).
    lia.
Qed.

(** X6: the split loses nothing and counts the marks: the pieces of
    [re_split] concatenate to the text, there are two per mark plus one,
    one sentence per mark plus one, and never more paragraphs than
    sentences. *)
Theorem split_counts (txt : str) (t : Z) :
  concat (re_split txt) = txt
  /\ List.length (re_split txt) = (2 * count_marks txt + 1)%nat
  /\ List.length (sentences txt) = S (count_marks txt)
  /\ (List.length (paragraphize txt t) <= S (count_marks txt))%nat.
Proof.
  split; [apply re_split_concat|]. split; [apply re_split_length|].
  assert (L : List.length (sentences txt) = S (count_marks txt))
    by (rewrite sentences_eq, length_map; apply split_sents_length).
  split; [exact L|].
  rewrite paragraphize_greedy.
  pose proof (greedy_length t (sentences txt) []) as H. simpl in H. lia.
Qed.

(** ** The chunker: degenerate durations, file names *)

Lemma range_items_empty (L d : Z) :
  0 <= L -> d < 0 \/ L = 0 -> Py.range_items 0 L d = [].
Proof.
  intros HL H. unfold Py.range_items, Py.range_length.
  destruct (Z.ltb_spec 0 d).
  - destruct (Z.ltb_spec 0 L); [lia|reflexivity].
  - destruct (Z.ltb_spec L 0); [lia|reflexivity].
Qed.

(** X7: with zero minutes the chunker raises [ValueError] before it writes
    any segment; with negative minutes, or on empty audio, it writes no
    segment and returns no part. *)
Theorem chunk_wav_degenerate (env : Env) (wav : Path) (w : World)
  (audio : AudioSegment) (mins : Z) :
  read_audio env wav w = (w, inr audio) ->
  (mins = 0 -> chunk_wav env wav mins w = (w, inl ValueError))
  /\ (mins < 0 \/ (0 < mins /\ audio = []) ->
      exists w',
        chunk_wav env wav mins w = (w', inr [])
        /\ fs w' = fs w
        /\ hd_error (ui w') = Some (UiLog (LogChunked 0 mins))).
Proof.
  intros Hr. split.
  - intros ->. unfold chunk_wav, bind. rewrite Hr. reflexivity.
  - intros H. unfold chunk_wav, bind at 1. rewrite Hr.
    assert (E : chunk_windows audio mins = Some []).
    { unfold chunk_windows, Py.range.
      destruct (Z.eqb_spec (mins * 60 * 1000) 0); [lia|].
      rewrite range_items_empty; [reflexivity|apply len_nonneg|].
      destruct H as [H|[H ->]]; [left; lia|now right]. }
    rewrite E. simpl. eexists. repeat split.
Qed.

Lemma chunk_wav_degenerate_witness :
  (0 = 0 ->
   chunk_wav demo_env (div demo_base (lit "talk.wav")) 0
             (mkWorld [(div demo_base (lit "talk.wav"), FWav [3; 1; 4] [])]
                      None [] true)
   = (mkWorld [(div demo_base (lit "talk.wav"), FWav [3; 1; 4] [])]
              None [] true, inl ValueError))
  /\ (0 < 0 \/ (0 < 0 /\ [3; 1; 4] = []) ->
      exists w',
        chunk_wav demo_env (div demo_base (lit "talk.wav")) 0
                  (mkWorld [(div demo_base (lit "talk.wav"), FWav [3; 1; 4] [])]
                           None [] true)
        = (w', inr [])
        /\ fs w' = fs (mkWorld [(div demo_base (lit "talk.wav"),
                                 FWav [3; 1; 4] [])] None [] true)
        /\ hd_error (ui w') = Some (UiLog (LogChunked 0 0))).
Proof.
  apply (chunk_wav_degenerate demo_env (div demo_base (lit "talk.wav"))
           (mkWorld [(div demo_base (lit "talk.wav"), FWav [3; 1; 4] [])]
                    None [] true) [3; 1; 4] 0).
  vm_compute. reflexivity.
Defined.

Lemma rfind_dot_wav (s : str) :
  rfind_dot (s ++ lit ".wav") = Some (List.length s).
Proof.
  induction s as [|c r IH]; [reflexivity|].
  change ((c :: r) ++ lit ".wav") with (c :: (r ++ lit ".wav")).
  cbn [rfind_dot]. rewrite IH. reflexivity.
Qed.

Lemma stem_nonempty (p : Path) : name p <> [] -> stem p <> [].
Proof.
  unfold stem, suffix_index. intros H.
  destruct (rfind_dot (name p)) as [i|]; [|exact H].
  destruct ((0 <? Z.of_nat i) && (Z.of_nat i <? Py.len (name p) - 1)) eqn:E;
    [|exact H].
  apply andb_true_iff in E. destruct E as [E1 _]. apply Z.ltb_lt in E1.
  destruct i; [lia|]. destruct (name p); [contradiction|discriminate].
Qed.

(** X8: the waveform of an input with a name is written next to it, under
    the input's stem followed by [.wav], and has the same stem again, so
    segment files and transcript are named after the input; an input with
    no name has no waveform path ([ValueError]). *)
Theorem with_suffix_wav (p : Path) :
  (name p <> [] ->
   exists wav,
     with_suffix p (lit ".wav") = Some wav
     /\ root wav = root p
     /\ parent wav = parent p
     /\ name wav = stem p ++ lit ".wav"
     /\ stem wav = stem p)
  /\ (name p = [] -> with_suffix p (lit ".wav") = None).
Proof.
  unfold with_suffix. split; intros H.
  - destruct (name p) as [|c r] eqn:E; [contradiction|]. simpl Py.truthy.
    eexists. split; [reflexivity|]. split; [reflexivity|].
    assert (N : name (mkPath (root p)
                             (removelast (names p) ++ [stem p ++ lit ".wav"]))
                = stem p ++ lit ".wav")
      by (unfold name; simpl; apply last_last).
    split; [|split; [exact N|]].
    + unfold parent. simpl. now rewrite removelast_last.
    + assert (Hs : stem p <> []) by (apply stem_nonempty; congruence).
      unfold stem at 1, suffix_index. rewrite N, rfind_dot_wav.
      unfold Py.len. rewrite length_app.
      change (List.length (lit ".wav")) with 4%nat.
      assert (0 < List.length (stem p))%nat
        by (destruct (stem p); [contradiction|simpl; lia]).
      destruct (Z.ltb_spec 0 (Z.of_nat (List.length (stem p)))); [|lia].
      destruct (Z.ltb_spec (Z.of_nat (List.length (stem p)))
                           (Z.of_nat (List.length (stem p) + 4) - 1)); [|lia].
      simpl. rewrite firstn_app, firstn_all, Nat.sub_diag. simpl.
      apply app_nil_r.
  - now rewrite H.
Qed.

Lemma with_suffix_wav_witness :
  exists wav,
    with_suffix (path_of_str (lit "/media/talk.2024.mp4")) (lit ".wav")
    = Some wav
    /\ root wav = root (path_of_str (lit "/media/talk.2024.mp4"))
    /\ parent wav = parent (path_of_str (lit "/media/talk.2024.mp4"))
    /\ name wav = stem (path_of_str (lit "/media/talk.2024.mp4")) ++ lit ".wav"
    /\ stem wav = stem (path_of_str (lit "/media/talk.2024.mp4")).
Proof.
  apply (proj1 (with_suffix_wav (path_of_str (lit "/media/talk.2024.mp4")))).
  vm_compute. discriminate.
Defined.

Lemma digits_acc_uint_pos (d : Decimal.uint) :
  forall acc,
    digits_acc (uint_digits d) (N.pos acc)
    = Some (N.pos (Pos.of_uint_acc d acc)).
Proof.
  induction d; intros acc; [reflexivity|..];
    cbn [uint_digits digits_acc Pos.of_uint_acc];
    change (digit_of 48) with (Some 0%N); change (digit_of 49) with (Some 1%N);
    change (digit_of 50) with (Some 2%N); change (digit_of 51) with (Some 3%N);
    change (digit_of 52) with (Some 4%N); change (digit_of 53) with (Some 5%N);
    change (digit_of 54) with (Some 6%N); change (digit_of 55) with (Some 7%N);
    change (digit_of 56) with (Some 8%N); change (digit_of 57) with (Some 9%N);
    cbv iota; rewrite <- IHd; f_equal; lia.
Qed.

Lemma digits_acc_uint (d : Decimal.uint) :
  digits_acc (uint_digits d) 0%N = Some (N.of_uint d).
Proof.
  unfold N.of_uint.
  induction d; [reflexivity|exact IHd|..];
    cbn [uint_digits digits_acc Pos.of_uint]; apply (digits_acc_uint_pos d).
Qed.

Lemma digits_acc_zeros (k : nat) (s : str) :
  digits_acc (repeat 48%N k ++ s) 0%N = digits_acc s 0%N.
Proof. induction k as [|k IH]; [reflexivity|]. exact IH. Qed.

Lemma zero_pad_length (width : nat) (s : str) :
  (width <= List.length (zero_pad width s))%nat.
Proof. unfold zero_pad. rewrite length_app, repeat_length. lia. Qed.

(** The field reads back as the index, by a reader that accepts decimal
    digits only. *)
Lemma fmt_03d_value (n : Z) :
  0 <= n -> digits_value (fmt_03d n) = Some (Z.to_N n).
Proof.
  intros Hn. unfold fmt_03d. destruct (Z.ltb_spec n 0); [lia|].
  pose proof (zero_pad_length 3 (uint_digits (N.to_uint (Z.to_N n)))) as L.
  unfold digits_value.
  destruct (zero_pad 3 (uint_digits (N.to_uint (Z.to_N n)))) as [|c r] eqn:E;
    [simpl in L; lia|].
  rewrite <- E. unfold zero_pad.
  rewrite digits_acc_zeros, digits_acc_uint.
  now rewrite DecimalN.Unsigned.of_to.
Qed.

Lemma fmt_03d_injective (n m : Z) :
  0 <= n -> 0 <= m -> fmt_03d n = fmt_03d m -> n = m.
Proof.
  intros Hn Hm E. pose proof (fmt_03d_value n Hn) as A.
  rewrite E, (fmt_03d_value m Hm) in A. injection A as A. lia.
Qed.

Lemma nzhead_no_zero (d d' : Decimal.uint) :
  Decimal.nzhead d <> Decimal.D0 d'.
Proof. induction d; simpl; try discriminate. exact IHd. Qed.

(** The digits of a number start with a zero only when they are ["0"]. *)
Lemma to_uint_head (n : N) :
  uint_digits (N.to_uint n) = [48%N]
  \/ hd 0%N (uint_digits (N.to_uint n)) <> 48%N.
Proof.
  rewrite <- (DecimalN.Unsigned.of_to n) at 1 2.
  rewrite DecimalN.Unsigned.to_of. unfold Decimal.unorm.
  pose proof (nzhead_no_zero (N.to_uint n)) as Z.
  destruct (Decimal.nzhead (N.to_uint n)); simpl; auto;
    try (right; discriminate).
  now specialize (Z u).
Qed.

(** X9: the index field of a segment file name is the index in decimal
    digits, padded with zeros to three characters and not beyond: it is
    made of digits only and denotes the index, it has at least three
    characters, exactly three for an index below one thousand, and a longer
    field does not start with a zero. *)
Theorem fmt_03d_index (n : Z) :
  0 <= n ->
  digits_value (fmt_03d n) = Some (Z.to_N n)
  /\ (3 <= List.length (fmt_03d n))%nat
  /\ (n < 1000 -> List.length (fmt_03d n) = 3%nat)
  /\ ((3 < List.length (fmt_03d n))%nat -> hd 0%N (fmt_03d n) <> 48%N).
Proof.
  intros Hn. split; [now apply fmt_03d_value|].
  unfold fmt_03d. destruct (Z.ltb_spec n 0); [lia|].
  split; [apply zero_pad_length|]. split.
  - intros Hlt.
    assert (A : forallb (fun k => Nat.eqb
                (List.length (zero_pad 3 (uint_digits (N.to_uint (N.of_nat k)))))
                3) (seq 0 (Z.to_nat 1000)) = true)
      by (vm_compute; reflexivity).
    rewrite forallb_forall in A.
    specialize (A (Z.to_nat n)). rewrite in_seq in A.
    replace (N.of_nat (Z.to_nat n)) with (Z.to_N n) in A by lia.
    apply Nat.eqb_eq, A. lia.
  - unfold zero_pad. rewrite length_app, repeat_length. intros L.
    replace (3 - List.length (uint_digits (N.to_uint (Z.to_N n))))%nat
      with 0%nat by lia.
    simpl. destruct (to_uint_head (Z.to_N n)) as [E|E]; [|exact E].
    rewrite E in L. simpl in L. lia.
Qed.

Lemma fmt_03d_index_witness :
  digits_value (fmt_03d 7) = Some (Z.to_N 7)
  /\ (3 <= List.length (fmt_03d 7))%nat
  /\ (7 < 1000 -> List.length (fmt_03d 7) = 3%nat)
  /\ ((3 < List.length (fmt_03d 7))%nat -> hd 0%N (fmt_03d 7) <> 48%N).
Proof. apply (fmt_03d_index 7). lia. Defined.

(** A field padded with blanks is not read as a number. *)
Example digits_value_blank_padded : digits_value (lit "  7") = None.
Proof. reflexivity. Qed.

(** The name of the third segment of [/app/talk.wav]. *)
Example part_path_third :
  part_path (div demo_base (lit "talk.wav")) 2400000 1200000
  = mkPath [slash] [lit "app"; lit "talk.part002.wav"].
Proof. vm_compute. reflexivity. Qed.

(** ** Extraction and chunking together *)

Lemma lookup_head (p : Path) (f : file) (l : list (Path * file)) :
  lookup p ((p, f) :: l) = Some f.
Proof.
  unfold lookup. simpl. destruct (Path_eq_dec p p); [reflexivity|contradiction].
Qed.

Lemma read_audio_written (env : Env) (p : Path) (a : AudioSegment)
  (ps : list str) (w : World) :
  hd_error (fs w) = Some (p, FWav a ps) -> read_audio env p w = (w, inr a).
Proof.
  unfold read_audio. destruct (fs w) as [|[q f] l]; [discriminate|].
  intros [= -> ->]. now rewrite lookup_head.
Qed.

Lemma read_audio_same_files (env : Env) (p : Path) (w w1 : World)
  (r : exn + AudioSegment) :
  fs w1 = fs w -> read_audio env p w = (w, r) -> read_audio env p w1 = (w1, r).
Proof.
  unfold read_audio. intros ->.
  destruct (lookup p (fs w)) as [[a ps| |]|]; intros [= <-]; reflexivity.
Qed.

(** The windows of a positive duration exist and cover the audio. *)
Lemma chunk_windows_cover (audio : AudioSegment) (mins : Z) :
  0 < mins ->
  exists windows,
    chunk_windows audio mins = Some windows
    /\ concat (map snd windows) = audio.
Proof.
  intros Hm. set (d := mins * 60 * 1000). assert (Hd : 0 < d) by (unfold d; lia).
  pose proof (len_nonneg audio) as HL.
  destruct (ceil_div_bounds (Py.len audio) d HL Hd) as (Hn0 & Hlo & Hhi & Hz).
  set (n := ceil_div (Py.len audio) d) in *.
  unfold chunk_windows. fold d. unfold Py.range.
  destruct (Z.eqb_spec d 0); [lia|].
  rewrite range_items_windows by assumption. fold n.
  eexists. split; [reflexivity|]. rewrite !map_map. simpl.
  rewrite (map_ext_in _ (fun k => firstn (Z.to_nat d)
                                    (skipn (k * Z.to_nat d) audio))).
  - rewrite concat_windows. apply firstn_all2. unfold Py.len in *. nia.
  - intros k Hk. apply in_seq in Hk.
    assert (0 <= Z.of_nat k * d < Py.len audio).
    { destruct (Z.eqb_spec (Py.len audio) 0) as [E|E].
      - rewrite (Hz E) in Hk. simpl in Hk. lia.
      - assert (Z.of_nat k * d <= (n - 1) * d) by nia. nia. }
    rewrite audio_slice_window by assumption. do 2 f_equal. lia.
Qed.

Lemma extract_run (env : Env) (mp4 wav : Path) (audio : AudioSegment)
  (w : World) :
  with_suffix mp4 (lit ".wav") = Some wav ->
  read_audio env mp4 w = (w, inr audio) ->
  exists w2,
    extract_wav_from_mp4 env mp4 w = (w2, inr wav)
    /\ fs w2 = (wav, FWav audio []) :: fs w.
Proof.
  intros Hs Hr.
  set (w1 := mkWorld (fs w) (converter w)
                     (UiLog (LogExtract (name mp4) (name wav)) :: ui w)
                     (running w)).
  exists (mkWorld ((wav, FWav audio []) :: fs w) (converter w1) (ui w1)
                  (running w1)).
  split; [|reflexivity].
  unfold extract_wav_from_mp4. rewrite Hs.
  unfold bind at 1. unfold log, emit. fold w1.
  unfold bind at 1.
  rewrite (read_audio_same_files env mp4 w w1 (inr audio) eq_refl Hr).
  reflexivity.
Qed.

Lemma chunk_run (env : Env) (wav : Path) (audio : AudioSegment) (mins : Z)
  (w : World) :
  read_audio env wav w = (w, inr audio) ->
  0 < mins ->
  exists w' windows,
    chunk_wav env wav mins w
    = (w', inr (map (fun iw => part_path wav (fst iw) (mins * 60 * 1000))
                    windows))
    /\ concat (map snd windows) = audio
    /\ fs w'
       = rev (map (fun iw => (part_path wav (fst iw) (mins * 60 * 1000),
                              FWav (snd iw) export_parameters)) windows)
         ++ fs w.
Proof.
  intros Hr Hm.
  destruct (chunk_windows_cover audio mins Hm) as (windows & Hc & Hcat).
  destruct (export_parts_run wav (mins * 60 * 1000) windows w) as (w3 & X & F).
  exists (mkWorld (fs w3) (converter w3)
                  (UiLog (LogChunked
                            (Py.len (map (fun iw => part_path wav (fst iw)
                                                      (mins * 60 * 1000))
                                         windows)) mins) :: ui w3)
                  (running w3)), windows.
  split; [|split; [exact Hcat|exact F]].
  unfold chunk_wav. unfold bind at 1. rewrite Hr, Hc.
  unfold bind at 1. rewrite X. reflexivity.
Qed.

(** ** The end of a job *)

Lemma emit_ui (e : ui_event) (w w' : World) (u : unit) :
  emit e w = (w', inr u) -> ui w' = e :: ui w.
Proof. unfold emit. now intros [= <- _]. Qed.

(** X12: a job always ends with the form not running; its last event is
    the completion line when the body succeeded, and otherwise the error
    dialog for the exception raised, after the two log entries for it,
    with the files as the body left them. *)
Theorem run_pipeline_ends (env : Env) (base : Path) (p : Params) (w : World) :
  running (run_pipeline env base p w) = false
  /\ ((snd (pipeline_body env base p w) = inr tt
       /\ hd_error (ui (run_pipeline env base p w)) = Some (UiLog LogAllDone))
      \/ exists e,
          snd (pipeline_body env base p w) = inl e
          /\ ui (run_pipeline env base p w)
             = UiShowError e :: UiLog (LogTraceback e) :: UiLog (LogError e)
                 :: ui (fst (pipeline_body env base p w))
          /\ fs (run_pipeline env base p w)
             = fs (fst (pipeline_body env base p w))).
Proof.
  split; [reflexivity|]. unfold run_pipeline.
  destruct (pipeline_body env base p w) as [w1 [e|[]]] eqn:H.
  - right. exists e. repeat split.
  - left. split; [reflexivity|]. simpl.
    unfold pipeline_body in H. cbv zeta in H.
    repeat (apply bind_ok in H; destruct H as (? & ? & _ & H)).
    apply emit_ui in H. now rewrite H.
Qed.

(** ** The start button: guard and inputs *)

(** X13: once a press has started a job, further presses are ignored and
    change nothing, until the job has run: the press itself writes no file,
    it has checked that the input exists, and the job releases the guard. *)
Theorem start_guard (env : Env) (base : Path) (form : Form) (w w1 : World)
  (p : Params) :
  on_start env base form w = (w1, Started p) ->
  (forall form', on_start env base form' w1 = (w1, AlreadyRunning))
  /\ fs w1 = fs w
  /\ path_exists env (mp4_path p) w = true
  /\ running (run_pipeline env base p w1) = false.
Proof.
  unfold on_start. destruct (running w); [discriminate|].
  destruct (Py.truthy (Py.strip (mp4_var form))); [|discriminate].
  simpl negb.
  destruct (path_exists env (resolve_input base (Py.strip (mp4_var form))) w)
    eqn:E; [|discriminate].
  simpl. intros [= <- <-]. repeat split. simpl. exact E.
Qed.

Lemma start_guard_witness :
  (forall form',
      on_start demo_env demo_base form'
               (fst (on_start demo_env demo_base demo_form demo_world))
      = (fst (on_start demo_env demo_base demo_form demo_world),
         AlreadyRunning))
  /\ fs (fst (on_start demo_env demo_base demo_form demo_world))
     = fs demo_world
  /\ path_exists demo_env (mp4_path (mkParams
         (mkPath [slash] [lit "app"; lit "talk.mp4"]) 20 (lit "small")
         (lit "zh") 500 5 false 170)) demo_world = true
  /\ running (run_pipeline demo_env demo_base
                (mkParams (mkPath [slash] [lit "app"; lit "talk.mp4"]) 20
                          (lit "small") (lit "zh") 500 5 false 170)
                (fst (on_start demo_env demo_base demo_form demo_world)))
     = false.
Proof.
  apply (start_guard demo_env demo_base demo_form demo_world).
  vm_compute. reflexivity.
Defined.

(** X14: a press with an empty or blank input only warns: no job is
    started, nothing is written and the form stays not running. *)
Theorem on_start_blank_input (env : Env) (base : Path) (form : Form)
  (w : World) :
  running w = false ->
  blank (mp4_var form) = true ->
  snd (on_start env base form w) = NoInput
  /\ job env base form w
     = mkWorld (fs w) (converter w) (UiWarnNoInput :: ui w) false.
Proof.
  intros Hr Hb. unfold job, on_start.
  rewrite Hr, (strip_blank _ Hb). simpl. rewrite Hr. split; reflexivity.
Qed.

Lemma on_start_blank_input_witness :
  snd (on_start demo_env demo_base
         (mkForm [0x20; 0x09]%N 20 (lit "small") (lit "zh") 500 5 false 170)
         demo_world) = NoInput
  /\ job demo_env demo_base
         (mkForm [0x20; 0x09]%N 20 (lit "small") (lit "zh") 500 5 false 170)
         demo_world
     = mkWorld (fs demo_world) (converter demo_world)
               (UiWarnNoInput :: ui demo_world) false.
Proof.
  apply (on_start_blank_input demo_env demo_base
           (mkForm [0x20; 0x09]%N 20 (lit "small") (lit "zh") 500 5 false 170)
           demo_world); reflexivity.
Defined.

Lemma absolute_iff_slash (s : str) :
  is_absolute (path_of_str s) = true <-> exists r, s = slash :: r.
Proof.
  unfold is_absolute, path_of_str. simpl root. split.
  - destruct s as [|a [|b [|c r]]]; simpl; [discriminate| | |];
      destruct (N.eqb_spec a slash) as [->|]; try discriminate; eauto.
  - intros [r ->]. destruct r as [|b [|c r]]; simpl; [reflexivity| |].
    + destruct (b =? slash)%N; reflexivity.
    + destruct ((b =? slash)%N && negb (c =? slash)%N); reflexivity.
Qed.

(** X15: an input is taken as absolute exactly when it starts with a slash,
    and then it is used as it is: the base directory plays no part, and the
    existence test and the job are on the path as typed. *)
Theorem on_start_absolute_input (env : Env) (base : Path) (form : Form)
  (w : World) :
  (forall s, is_absolute (path_of_str s) = true <-> exists r, s = slash :: r)
  /\ (forall r,
        running w = false ->
        Py.strip (mp4_var form) = slash :: r ->
        resolve_input base (slash :: r) = path_of_str (slash :: r)
        /\ snd (on_start env base form w)
           = if path_exists env (path_of_str (slash :: r)) w
             then Started (mkParams (path_of_str (slash :: r))
                             (minutes_var form) (model_var form)
                             (language_var form) (vad_ms_var form)
                             (beam_var form) (cond_prev_var form)
                             (paragraph_max_var form))
             else InputNotFound (path_of_str (slash :: r))).
Proof.
  split; [apply absolute_iff_slash|]. intros r Hr Hs.
  assert (A : is_absolute (path_of_str (slash :: r)) = true)
    by (apply absolute_iff_slash; now exists r).
  assert (R : resolve_input base (slash :: r) = path_of_str (slash :: r))
    by (unfold resolve_input; now rewrite A).
  split; [exact R|]. unfold on_start. rewrite Hr, Hs, R. simpl Py.truthy.
  simpl negb at 1. cbv iota.
  destruct (path_exists env (path_of_str (slash :: r)) w); reflexivity.
Qed.

Lemma on_start_absolute_input_witness :
  resolve_input demo_base (slash :: lit "media/talk.mp4")
  = path_of_str (slash :: lit "media/talk.mp4")
  /\ snd (on_start demo_env demo_base
            (mkForm (lit "/media/talk.mp4") 20 (lit "small") (lit "zh")
                    500 5 false 170) demo_world)
     = if path_exists demo_env (path_of_str (slash :: lit "media/talk.mp4"))
                      demo_world
       then Started (mkParams (path_of_str (slash :: lit "media/talk.mp4"))
                       20 (lit "small") (lit "zh") 500 5 false 170)
       else InputNotFound (path_of_str (slash :: lit "media/talk.mp4")).
Proof.
  apply (proj2 (on_start_absolute_input demo_env demo_base
           (mkForm (lit "/media/talk.mp4") 20 (lit "small") (lit "zh")
                   500 5 false 170) demo_world) (lit "media/talk.mp4"));
    reflexivity.
Defined.

(** ** Transcription: progress and failure *)


Lemma transcribe_same_files (env : Env) (m : str) (p : Params)
  (l : option str) (part : Path) (w w1 : World) :
  fs w1 = fs w ->
  transcribe env m p l part w1
  = (w1, snd (transcribe env m p l part w)).
Proof.
  unfold transcribe. intros ->.
  destruct (lookup part (fs w)) as [f|]; [|reflexivity].
  destruct (recognise env m f l (vad_ms p) (beam p) (cond_prev p)); reflexivity.
Qed.

(** The loop up to its first failure, or to its end. *)
Lemma transcribe_parts_run (env : Env) (m : str) (p : Params)
  (l : option str) (total : Z) (w : World) (pre : list Path) :
  forall idx w1 texts,
    fs w1 = fs w ->
    Forall2 (fun q t => snd (transcribe env m p l q w) = inr t) pre texts ->
    (exists w2,
        transcribe_parts env m p l total idx pre w1 = (w2, inr texts)
        /\ fs w2 = fs w
        /\ progress_steps (ui w2)
           = (progress_steps (ui w1) + List.length pre)%nat)
    /\ forall part post e,
        snd (transcribe env m p l part w) = inl e ->
        exists w2,
          transcribe_parts env m p l total idx (pre ++ part :: post) w1
          = (w2, inl e)
          /\ fs w2 = fs w
          /\ progress_steps (ui w2)
             = (progress_steps (ui w1) + List.length pre)%nat.
Proof.
  induction pre as [|q pre IH]; intros idx w1 texts Hfs F.
  - inversion F; subst. split.
    + exists w1. repeat split; [assumption|simpl; lia].
    + intros part post e He. simpl.
      unfold bind at 1. unfold log, emit at 1. unfold bind at 1.
      rewrite (transcribe_same_files env m p l part w) by exact Hfs.
      rewrite He. eexists. repeat split; [exact Hfs|].
      unfold progress_steps. simpl. lia.
  - inversion F as [|? t ? ts Hq F']; subst.
    set (wa := mkWorld (fs w1) (converter w1)
                       (UiLog (LogTranscribing idx total (name q)) :: ui w1)
                       (running w1)).
    set (wb := mkWorld (fs wa) (converter wa) (UiProgressStep :: ui wa)
                       (running wa)).
    assert (Hb : fs wb = fs w) by exact Hfs.
    destruct (IH (idx + 1) wb ts Hb F') as [(w2 & E2 & F2 & P2) Hfail].
    assert (Step : forall rest,
               transcribe_parts env m p l total idx (q :: rest) w1
               = (texts <- transcribe_parts env m p l total (idx + 1) rest ;;
                  ret (t :: texts)) wb).
    { intros rest. simpl transcribe_parts.
      unfold bind at 1. unfold log, emit at 1. fold wa. unfold bind at 1.
      rewrite (transcribe_same_files env m p l q w) by exact Hfs.
      rewrite Hq. unfold bind at 1. unfold emit at 1. reflexivity. }
    split.
    + exists w2. rewrite Step. unfold bind. rewrite E2.
      repeat split; [exact F2|]. rewrite P2.
      unfold progress_steps. simpl. lia.
    + intros part post e He.
      destruct (Hfail part post e He) as (w3 & E3 & F3 & P3).
      exists w3. simpl app. rewrite Step. unfold bind. rewrite E3.
      repeat split; [exact F3|]. rewrite P3.
      unfold progress_steps. simpl. lia.
Qed.

(** X16: when every part is transcribed, the loop returns one fragment per
    part, in order, advances the progress bar once per part and writes no
    file. *)
Theorem transcribe_parts_progress (env : Env) (m : str) (p : Params)
  (l : option str) (total idx : Z) (parts : list Path) (texts : list str)
  (w : World) :
  Forall2 (fun q t => snd (transcribe env m p l q w) = inr t) parts texts ->
  exists w',
    transcribe_parts env m p l total idx parts w = (w', inr texts)
    /\ fs w' = fs w
    /\ progress_steps (ui w')
       = (progress_steps (ui w) + List.length parts)%nat.
Proof.
  intros F.
  exact (proj1 (transcribe_parts_run env m p l total w parts idx w texts
                  eq_refl F)).
Qed.

(** X17: the first part that fails ends the loop with its exception: the
    parts after it are not transcribed, and the progress bar shows the
    number of parts done before it. *)
Theorem transcribe_parts_first_failure (env : Env) (m : str) (p : Params)
  (l : option str) (total idx : Z) (pre post : list Path) (part : Path)
  (texts : list str) (e : exn) (w : World) :
  Forall2 (fun q t => snd (transcribe env m p l q w) = inr t) pre texts ->
  snd (transcribe env m p l part w) = inl e ->
  exists w',
    transcribe_parts env m p l total idx (pre ++ part :: post) w = (w', inl e)
    /\ fs w' = fs w
    /\ progress_steps (ui w')
       = (progress_steps (ui w) + List.length pre)%nat.
Proof.
  intros F He.
  exact (proj2 (transcribe_parts_run env m p l total w pre idx w texts
                  eq_refl F) part post e He).
Qed.

Lemma transcribe_parts_progress_witness :
  exists w',
    transcribe_parts demo_env (lit "small") demo_params (Some (lit "zh")) 1 1
                     [demo_part] demo_chunked
    = (w', inr [lit "今天天氣很好。我們去公園散步。"])
    /\ fs w' = fs demo_chunked
    /\ progress_steps (ui w')
       = (progress_steps (ui demo_chunked) + List.length [demo_part])%nat.
Proof.
  apply (transcribe_parts_progress demo_env (lit "small") demo_params
           (Some (lit "zh")) 1 1).
  constructor; [vm_compute; reflexivity|constructor].
Defined.

Lemma transcribe_parts_first_failure_witness :
  exists w',
    transcribe_parts demo_env (lit "small") demo_params (Some (lit "zh")) 3 1
                     ([demo_part] ++ demo_missing_part :: [demo_part])
                     demo_chunked
    = (w', inl (FileNotFoundError demo_missing_part))
    /\ fs w' = fs demo_chunked
    /\ progress_steps (ui w')
       = (progress_steps (ui demo_chunked) + List.length [demo_part])%nat.
Proof.
  apply (transcribe_parts_first_failure demo_env (lit "small") demo_params
           (Some (lit "zh")) 3 1 [demo_part] [demo_part] demo_missing_part
           [lit "今天天氣很好。我們去公園散步。"]).
  - constructor; [vm_compute; reflexivity|constructor].
  - vm_compute. reflexivity.
Defined.

(** ** The folder button *)

Lemma mkdir_twice (env : Env) (d : Path) (w w1 : World) (u : unit) :
  mkdir_exist_ok env d w = (w1, inr u) ->
  mkdir_exist_ok env d w1 = (w1, inr tt)
  /\ (fs w1 = fs w \/ fs w1 = (d, FDir) :: fs w).
Proof.
  unfold mkdir_exist_ok.
  destruct (lookup d (fs w)) as [[| |]|] eqn:L; try discriminate.
  - intros [= <- _]. rewrite L. auto.
  - destruct (disk_is_dir env d) eqn:D.
    + intros [= <- _]. rewrite L. auto.
    + destruct (disk_exists env d) eqn:X; [discriminate|].
      unfold write_file. intros [= <- _]. simpl. rewrite lookup_head. auto.
Qed.

(** X18: when the folder button does not fail, the output directory is
    there afterwards: a second press gives the same result and changes
    nothing, the job's own creation of the directory does nothing, and the
    first press added at most the directory to the files. *)
Theorem open_outdir_idempotent (env : Env) (base : Path)
  (startfile : Path -> bool) (w : World) :
  (forall e, snd (open_outdir env base startfile w) <> FolderFailed e) ->
  open_outdir env base startfile (fst (open_outdir env base startfile w))
  = open_outdir env base startfile w
  /\ mkdir_exist_ok env (div base (lit "transcripts"))
                    (fst (open_outdir env base startfile w))
     = (fst (open_outdir env base startfile w), inr tt)
  /\ (fs (fst (open_outdir env base startfile w)) = fs w
      \/ fs (fst (open_outdir env base startfile w))
         = (div base (lit "transcripts"), FDir) :: fs w).
Proof.
  unfold open_outdir. set (d := div base (lit "transcripts")).
  destruct (mkdir_exist_ok env d w) as [w1 [e|u]] eqn:E.
  - intros H. exfalso. exact (H e eq_refl).
  - intros _. destruct (mkdir_twice env d w w1 u E) as [T F].
    assert (X : fst (if startfile d then (w1, FolderOpened d)
                     else (w1, FolderPathShown d)) = w1)
      by (destruct (startfile d); reflexivity).
    rewrite X, T. auto.
Qed.

Lemma open_outdir_idempotent_witness :
  open_outdir demo_env demo_base (fun _ => false)
              (fst (open_outdir demo_env demo_base (fun _ => false) demo_world))
  = open_outdir demo_env demo_base (fun _ => false) demo_world
  /\ mkdir_exist_ok demo_env (div demo_base (lit "transcripts"))
       (fst (open_outdir demo_env demo_base (fun _ => false) demo_world))
     = (fst (open_outdir demo_env demo_base (fun _ => false) demo_world),
        inr tt)
  /\ (fs (fst (open_outdir demo_env demo_base (fun _ => false) demo_world))
      = fs demo_world
      \/ fs (fst (open_outdir demo_env demo_base (fun _ => false) demo_world))
         = (div demo_base (lit "transcripts"), FDir) :: fs demo_world).
Proof.
  apply (open_outdir_idempotent demo_env demo_base (fun _ => false) demo_world).
  intros e. vm_compute. discriminate.
Defined.

(** ** The encoding of the transcript *)


Ltac split_comparisons :=
  repeat match goal with
         | |- context [N.ltb ?a ?b] => destruct (N.ltb_spec a b)
         | |- context [N.leb ?a ?b] => destruct (N.leb_spec a b)
         end.

Lemma utf8_char_encodable (c : N) :
  encodable c = true <-> exists bs, Py.utf8_encode_char c = Some bs.
Proof.
  unfold encodable, Py.utf8_encode_char. split_comparisons; simpl;
    try lia; (split; [try discriminate; eauto|]);
    try reflexivity; intros [bs Hbs]; discriminate.
Qed.






(** ** A job in a working environment succeeds *)

Lemma lookup_in (p : Path) (l : list (Path * file)) :
  In p (map fst l) -> exists f, lookup p l = Some f.
Proof.
  unfold lookup. induction l as [|[q f] l IH]; simpl; [contradiction|].
  intros H. destruct (Path_eq_dec q p) as [E|N]; [now exists f|].
  apply IH. destruct H; [contradiction|assumption].
Qed.

Lemma lookup_skip (p : Path) (added l : list (Path * file)) :
  Forall (fun e => fst e <> p) added -> lookup p (added ++ l) = lookup p l.
Proof.
  unfold lookup. induction added as [|[q f] added IH]; intros F; [reflexivity|].
  inversion F as [|? ? Hq F']; subst. simpl in *.
  destruct (Path_eq_dec q p); [contradiction|]. now apply IH.
Qed.

Lemma split_slash_nonempty (s : str) : split_slash s <> [].
Proof.
  destruct s as [|c r]; simpl; [discriminate|].
  destruct (c =? slash)%N; [discriminate|].
  destruct (split_slash r); discriminate.
Qed.

Lemma split_slash_app (s w : str) :
  noslash w = true ->
  split_slash (s ++ w)
  = removelast (split_slash s) ++ [last (split_slash s) [] ++ w].
Proof.
  intros Hw. induction s as [|c r IH].
  - simpl. now apply split_slash_single.
  - change ((c :: r) ++ w) with (c :: (r ++ w)). simpl split_slash.
    rewrite IH.
    destruct (split_slash r) as [|a l] eqn:E;
      [now apply split_slash_nonempty in E|].
    destruct (c =? slash)%N; [reflexivity|].
    destruct l; reflexivity.
Qed.

(** The name of a file made from a string that ends in [.wav] ends in
    [v]. *)
Lemma name_div_wav (a : Path) (s : str) :
  last (name (div a (s ++ lit ".wav"))) 0%N = 118%N.
Proof.
  set (wv := lit ".wav").
  assert (W1 : noslash wv = true) by reflexivity.
  assert (W2 : wv = [46; 119; 97]%N ++ [118%N]) by reflexivity.
  clearbody wv. unfold div, path_join.
  assert (L : forall y, last (y ++ wv) 0%N = 118%N).
  { intros y. rewrite W2, app_assoc. apply last_last. }
  assert (K : forall y, filter (fun n => Py.truthy n
                  && negb (if str_eq_dec n [dot] then true else false))
                [y ++ wv] = [y ++ wv]).
  { intros y. cbn [filter].
    assert (T : Py.truthy (y ++ wv) = true)
      by (rewrite W2; destruct y; reflexivity).
    rewrite T. destruct (str_eq_dec (y ++ wv) [dot]) as [E|]; [|reflexivity].
    apply (f_equal (@List.length N)) in E. rewrite W2, !length_app in E.
    simpl in E. lia. }
  assert (N : exists l x, names (path_of_str (s ++ wv)) = l ++ [x ++ wv]).
  { unfold path_of_str. cbn [names].
    rewrite split_slash_app by exact W1. rewrite filter_app, K. eauto. }
  destruct N as (l & x & E).
  destruct (is_absolute (path_of_str (s ++ wv))); unfold name.
  - rewrite E, last_last. apply L.
  - cbn [names]. rewrite E, app_assoc, last_last. apply L.
Qed.


Lemma ends_in_v_not_outdir (base q : Path) :
  last (name q) 0%N = 118%N -> q <> div base (lit "transcripts").
Proof.
  intros H E. rewrite E in H. unfold div, path_join in H.
  replace (path_of_str (lit "transcripts"))
    with (mkPath [] [lit "transcripts"]) in H by (vm_compute; reflexivity).
  simpl in H. unfold name in H. simpl in H. rewrite last_last in H.
  vm_compute in H. discriminate.
Qed.

Lemma last_wav (y : str) : last (y ++ lit ".wav") 0%N = 118%N.
Proof.
  change (lit ".wav") with ([46; 119; 97]%N ++ [118%N]).
  rewrite app_assoc. apply last_last.
Qed.

Lemma wav_not_outdir (base p wav : Path) :
  with_suffix p (lit ".wav") = Some wav -> wav <> div base (lit "transcripts").
Proof.
  unfold with_suffix. destruct (Py.truthy (name p)); [|discriminate].
  intros [= <-]. apply ends_in_v_not_outdir. unfold name. cbn [names].
  rewrite last_last. apply last_wav.
Qed.

Lemma part_not_outdir (base wav : Path) (i step : Z) :
  part_path wav i step <> div base (lit "transcripts").
Proof.
  apply ends_in_v_not_outdir. unfold part_path.
  rewrite 2 app_assoc. apply name_div_wav.
Qed.

Lemma lstrip_incl (s : str) : incl (Py.lstrip s) s.
Proof.
  induction s as [|c r IH]; simpl; [apply incl_refl|].
  destruct (Py.is_space c); [now apply incl_tl|apply incl_refl].
Qed.

Lemma strip_incl (s : str) : incl (Py.strip s) s.
Proof.
  unfold Py.strip, Py.rstrip. intros x Hx.
  rewrite <- in_rev in Hx. apply lstrip_incl in Hx.
  rewrite <- in_rev in Hx. now apply lstrip_incl.
Qed.

(** The formatter invents no character. *)
Lemma paragraph_chars (txt : str) (t : Z) (p : str) :
  In p (paragraphize txt t) -> incl p txt.
Proof.
  intros Hp x Hx.
  assert (Hc : In x (concat (paragraphize txt t)))
    by (apply in_concat; eauto).
  rewrite paragraphize_greedy, greedy_concat in Hc. simpl in Hc.
  rewrite sentences_eq in Hc. apply in_concat in Hc.
  destruct Hc as (s & Hs & Hxs). apply in_map_iff in Hs.
  destruct Hs as (u & <- & Hu). apply strip_incl in Hxs.
  rewrite <- (split_sents_concat txt). apply in_concat. eauto.
Qed.

Lemma forallb_join (P : N -> bool) (sep : str) (l : list str) :
  forallb P sep = true -> Forall (fun p => forallb P p = true) l ->
  forallb P (Py.join sep l) = true.
Proof.
  intros Hs. induction l as [|a l IH]; intros F; [reflexivity|].
  inversion F as [|? ? Ha F']; subst. simpl.
  destruct l as [|b l]; [exact Ha|].
  rewrite !forallb_app, Ha, Hs. simpl. now apply IH.
Qed.

Lemma forallb_concat (P : N -> bool) (l : list str) :
  Forall (fun p => forallb P p = true) l -> forallb P (concat l) = true.
Proof.
  induction 1 as [|a l Ha F IH]; [reflexivity|].
  simpl. now rewrite forallb_app, Ha, IH.
Qed.

Lemma translate_newlines_encodable (sep : line_separator) (s : str) :
  forallb encodable s = true ->
  forallb encodable (translate_newlines sep s) = true.
Proof.
  unfold translate_newlines. induction s as [|c r IH]; [reflexivity|].
  simpl. intros H. apply andb_true_iff in H. destruct H as [Hc Hr].
  rewrite forallb_app, (IH Hr), andb_true_r.
  destruct (c =? newline)%N; [now destruct sep|]. simpl. now rewrite Hc.
Qed.

Lemma utf8_encode_total (s : str) :
  forallb encodable s = true -> exists content, Py.utf8_encode s = Some content.
Proof.
  induction s as [|c r IH]; simpl; [now exists String.EmptyString|].
  intros H. apply andb_true_iff in H. destruct H as [Hc Hr].
  destruct (proj1 (utf8_char_encodable c) Hc) as (bs & ->).
  destruct (IH Hr) as (content & ->). eauto.
Qed.

(** The transcript written is encodable when the fragments are. *)
Lemma output_encodable (sep : line_separator) (texts : list str) (t : Z) :
  Forall (fun s => forallb encodable s = true) texts ->
  exists content,
    Py.utf8_encode
      (translate_newlines sep
         (Py.join [newline; newline] (paragraphize (concat texts) t)))
    = Some content.
Proof.
  intros F. apply utf8_encode_total, translate_newlines_encodable.
  apply forallb_join; [reflexivity|]. apply Forall_forall. intros p Hp.
  apply forallb_forall. intros x Hx.
  apply (paragraph_chars _ _ _ Hp) in Hx.
  pose proof (forallb_concat encodable texts F) as C.
  rewrite forallb_forall in C. now apply C.
Qed.

Lemma ensure_ffmpeg_files (env : Env) (base : Path) (w : World) :
  fs (fst (ensure_ffmpeg env base w)) = fs w.
Proof.
  unfold ensure_ffmpeg.
  destruct (if path_exists env (div base (lit "ffmpeg.exe")) w
            then Some (str_of_path (div base (lit "ffmpeg.exe")))
            else py_or (which env (lit "ffmpeg")) (which env (lit "ffmpeg.exe")))
    as [s|]; [|reflexivity].
  destruct (Py.truthy s); reflexivity.
Qed.

Lemma bind_run {A B} (m : M A) (k : A -> M B) (w w1 : World) (a : A) :
  m w = (w1, inr a) -> bind m k w = k a w1.
Proof. unfold bind. now intros ->. Qed.

Lemma mkdir_same_lookup (env : Env) (d : Path) (w w1 : World) :
  lookup d (fs w1) = lookup d (fs w) ->
  snd (mkdir_exist_ok env d w) = inr tt ->
  exists w2, mkdir_exist_ok env d w1 = (w2, inr tt).
Proof.
  unfold mkdir_exist_ok. intros ->.
  destruct (lookup d (fs w)) as [[| |]|]; try discriminate; eauto.
  destruct (disk_is_dir env d); eauto.
  destruct (disk_exists env d); [discriminate|]. unfold write_file. eauto.
Qed.

Lemma log_run (m : log_msg) (w : World) :
  log m w = (mkWorld (fs w) (converter w) (UiLog m :: ui w) (running w), inr tt).
Proof. reflexivity. Qed.

Lemma emit_run (e : ui_event) (w : World) :
  emit e w = (mkWorld (fs w) (converter w) (e :: ui w) (running w), inr tt).
Proof. reflexivity. Qed.

(** Parts that were written can all be transcribed when the recogniser
    answers on every file. *)
Lemma parts_transcribable (env : Env) (m : str) (p : Params) (l : option str)
  (w : World) (parts : list Path) :
  (forall f, exists segs,
      recognise env m f l (vad_ms p) (beam p) (cond_prev p) = inr segs
      /\ forallb encodable (concat segs) = true) ->
  incl parts (map fst (fs w)) ->
  exists texts,
    Forall2 (fun q t => snd (transcribe env m p l q w) = inr t) parts texts
    /\ Forall (fun s => forallb encodable s = true) texts.
Proof.
  intros Hrec. induction parts as [|q parts IH]; intros Hin.
  - exists []. split; constructor.
  - destruct IH as (texts & F & G); [intros x Hx; apply Hin; now right|].
    destruct (lookup_in q (fs w)) as (f & Hf); [apply Hin; now left|].
    destruct (Hrec f) as (segs & Hs & He).
    exists (concat segs :: texts). split; constructor; trivial.
    unfold transcribe. now rewrite Hf, Hs.
Qed.

(** X20: a job succeeds, and writes the transcript last, when the converter
    is found, the input has a name and decodes, the duration is positive,
    the model loads, the recogniser answers on every file with encodable
    text, and the output directory exists or can be created. *)
Theorem pipeline_succeeds (env : Env) (base : Path) (p : Params) (w : World)
  (audio : AudioSegment) (ff : str) :
  snd (ensure_ffmpeg env base w) = inr ff ->
  name (mp4_path p) <> [] ->
  read_audio env (mp4_path p) w = (w, inr audio) ->
  0 < minutes p ->
  load_model env (model p) = None ->
  (forall f, exists segs,
      recognise env (model p) f (use_language (language p))
                (vad_ms p) (beam p) (cond_prev p) = inr segs
      /\ forallb encodable (concat segs) = true) ->
  snd (mkdir_exist_ok env (div base (lit "transcripts")) w) = inr tt ->
  exists w' content,
    pipeline_body env base p w = (w', inr tt)
    /\ hd_error (fs w')
       = Some (div (div base (lit "transcripts"))
                   (stem (mp4_path p) ++ lit ".txt"),
               FText content).
Proof.
  intros Hff Hname Hread Hmins Hload Hrec Hdir.
  (* the converter *)
  destruct (ensure_ffmpeg env base w) as [w1 r1] eqn:E1.
  simpl in Hff. subst r1.
  assert (F1 : fs w1 = fs w)
    by (pose proof (ensure_ffmpeg_files env base w) as F; now rewrite E1 in F).
  unfold pipeline_body. cbv zeta.
  rewrite (bind_run _ _ _ _ _ E1).
  rewrite (bind_run _ _ _ _ _ (log_run _ _)).
  set (w2 := mkWorld (fs w1) (converter w1) (UiLog LogFfmpegOk :: ui w1)
                     (running w1)).
  (* extraction *)
  destruct (with_suffix (mp4_path p) (lit ".wav")) as [wav|] eqn:Hs.
  2:{ unfold with_suffix in Hs. destruct (name (mp4_path p));
        [contradiction|discriminate]. }
  assert (R2 : read_audio env (mp4_path p) w2 = (w2, inr audio))
    by (apply (read_audio_same_files env _ w); [exact F1|exact Hread]).
  destruct (extract_run env _ wav audio w2 Hs R2) as (w3 & E3 & F3).
  rewrite (bind_run _ _ _ _ _ E3).
  (* chunking *)
  assert (R3 : read_audio env wav w3 = (w3, inr audio))
    by (apply (read_audio_written env wav audio []); now rewrite F3).
  destruct (chunk_run env wav audio (minutes p) w3 R3 Hmins)
    as (w4 & windows & E4 & _ & F4).
  rewrite (bind_run _ _ _ _ _ E4).
  set (parts := map (fun iw => part_path wav (fst iw) (minutes p * 60 * 1000))
                    windows) in *.
  rewrite (bind_run _ _ _ _ _ (emit_run _ _)).
  rewrite (bind_run _ _ _ _ _ (log_run _ _)).
  set (w6 := mkWorld _ _ (UiLog (LogLoadModel (model p)) :: _) _).
  assert (F6 : fs w6 = fs w4) by reflexivity.
  (* the model *)
  assert (E7 : WhisperModel env (model p) w6 = (w6, inr (model p)))
    by (unfold WhisperModel; now rewrite Hload).
  rewrite (bind_run _ _ _ _ _ E7).
  (* transcription *)
  assert (Hparts : incl parts (map fst (fs w6))).
  { rewrite F6, F4, map_app, map_rev, map_map. simpl.
    intros x Hx. apply in_or_app. left. now apply -> in_rev. }
  destruct (parts_transcribable env (model p) p (use_language (language p))
              w6 parts Hrec Hparts) as (texts & FT & GT).
  destruct (proj1 (transcribe_parts_run env (model p) p
                     (use_language (language p)) (Py.len parts) w6 parts
                     1 w6 texts eq_refl FT)) as (w8 & E8 & F8 & _).
  rewrite (bind_run _ _ _ _ _ E8).
  rewrite (bind_run _ _ _ _ _ (log_run _ _)).
  set (w9 := mkWorld (fs w8) _ _ _).
  (* the output directory *)
  assert (L9 : lookup (div base (lit "transcripts")) (fs w9)
               = lookup (div base (lit "transcripts")) (fs w)).
  { change (fs w9) with (fs w8). rewrite F8, F6, F4, F3.
    change (fs w2) with (fs w1). rewrite F1.
    change ((wav, FWav audio []) :: fs w)
      with ([(wav, FWav audio [])] ++ fs w).
    rewrite app_assoc. apply lookup_skip. apply Forall_app. split.
    - apply Forall_forall. intros e He. rewrite <- in_rev in He.
      apply in_map_iff in He. destruct He as (iw & <- & _). simpl.
      apply part_not_outdir.
    - constructor; [|constructor]. simpl. exact (wav_not_outdir _ _ _ Hs). }
  destruct (mkdir_same_lookup env _ w w9 L9 Hdir) as (w10 & E10).
  rewrite (bind_run _ _ _ _ _ E10).
  (* the transcript *)
  destruct (output_encodable (os_linesep env) texts (para_max p) GT)
    as (content & Henc).
  unfold write_text. unfold bind at 2. unfold write_file at 1. rewrite Henc.
  unfold bind, write_file, log, emit. simpl.
  eexists. exists content. split; reflexivity.
Qed.

Lemma pipeline_succeeds_witness :
  exists w' content,
    pipeline_body demo_env demo_base demo_params demo_world = (w', inr tt)
    /\ hd_error (fs w')
       = Some (div (div demo_base (lit "transcripts"))
                   (stem (mp4_path demo_params) ++ lit ".txt"),
               FText content).
Proof.
  apply (pipeline_succeeds demo_env demo_base demo_params demo_world
           [3; 1; 4; 1; 5] (lit "/app/ffmpeg.exe")).
  - vm_compute. reflexivity.
  - vm_compute. discriminate.
  - vm_compute. reflexivity.
  - vm_compute. reflexivity.
  - reflexivity.
  - intros f. eexists. split; [reflexivity|vm_compute; reflexivity].
  - vm_compute. reflexivity.
Defined.


(** ** The log panel *)

Lemma lstrip_idempotent (s : str) : Py.lstrip (Py.lstrip s) = Py.lstrip s.
Proof. apply lstrip_no_lead. Qed.

Lemma rstrip_idempotent (s : str) : Py.rstrip (Py.rstrip s) = Py.rstrip s.
Proof.
  unfold Py.rstrip. now rewrite rev_involutive, lstrip_idempotent.
Qed.

(** X21: a line of the log ends with one newline and has no whitespace
    before it; logging the text of a line again gives the same line, so
    trailing blanks and newlines of a message never add up. *)
Theorem log_line_shape (msg : str) :
  log_line (log_line msg) = log_line msg
  /\ Py.rstrip (log_line msg) = Py.rstrip msg
  /\ last (log_line msg) 0%N = newline
  /\ no_lead (rev (Py.rstrip msg)).
Proof.
  assert (R : Py.rstrip (log_line msg) = Py.rstrip msg).
  { unfold log_line. unfold Py.rstrip at 1. rewrite rev_app_distr.
    simpl. fold (Py.rstrip (Py.rstrip msg)). apply rstrip_idempotent. }
  split; [|split; [exact R|split]].
  - unfold log_line at 1. now rewrite R.
  - unfold log_line. apply last_last.
  - unfold Py.rstrip. rewrite rev_involutive. apply lstrip_no_lead.
Qed.

(** A message with trailing blanks and the line logged for it. *)
Example log_line_example : log_line (lit "done  ") = [100; 111; 110; 101; 10]%N.
Proof. vm_compute. reflexivity. Qed.

(** * Segment files and the transcript *)

(** ** Each segment has its own file *)

Lemma noslash_app (a b : str) : noslash (a ++ b) = noslash a && noslash b.
Proof. apply forallb_app. Qed.

Lemma uint_digits_noslash (d : Decimal.uint) : noslash (uint_digits d) = true.
Proof. induction d; simpl; trivial. Qed.

Lemma fmt_03d_noslash (n : Z) : noslash (fmt_03d n) = true.
Proof.
  assert (R : forall k, noslash (repeat 48%N k) = true)
    by (induction k; simpl; trivial).
  unfold fmt_03d, zero_pad. destruct (n <? 0).
  - change (45%N :: ?l) with ([45%N] ++ l).
    now rewrite !noslash_app, R, uint_digits_noslash.
  - now rewrite noslash_app, R, uint_digits_noslash.
Qed.

(** The name of a file made from a string: what follows the last slash. *)
Lemma name_div_tail (a : Path) (s w : str) :
  noslash w = true -> (2 <= List.length w)%nat ->
  name (div a (s ++ w)) = last (split_slash s) [] ++ w.
Proof.
  intros W1 W2. unfold div, path_join.
  assert (K : forall y, filter (fun n => Py.truthy n
                  && negb (if str_eq_dec n [dot] then true else false))
                [y ++ w] = [y ++ w]).
  { intros y. cbn [filter].
    assert (T : Py.truthy (y ++ w) = true)
      by (destruct y; [destruct w; [simpl in W2; lia|]|]; reflexivity).
    rewrite T. destruct (str_eq_dec (y ++ w) [dot]) as [E|]; [|reflexivity].
    apply (f_equal (@List.length N)) in E. rewrite length_app in E.
    simpl in E. lia. }
  assert (N : exists l, names (path_of_str (s ++ w))
                        = l ++ [last (split_slash s) [] ++ w]).
  { unfold path_of_str. cbn [names].
    rewrite split_slash_app by exact W1. rewrite filter_app, K. eauto. }
  destruct N as (l & E).
  destruct (is_absolute (path_of_str (s ++ w))); unfold name.
  - now rewrite E, last_last.
  - cbn [names]. now rewrite E, app_assoc, last_last.
Qed.

Lemma part_name (wav : Path) (i step : Z) :
  name (part_path wav i step)
  = last (split_slash (stem wav ++ lit ".part")) []
    ++ fmt_03d (i / step) ++ lit ".wav".
Proof.
  unfold part_path.
  replace (stem wav ++ lit ".part" ++ fmt_03d (i / step) ++ lit ".wav")
    with ((stem wav ++ lit ".part") ++ (fmt_03d (i / step) ++ lit ".wav"))
    by now rewrite <- app_assoc.
  apply name_div_tail.
  - now rewrite noslash_app, fmt_03d_noslash.
  - rewrite length_app. simpl. lia.
Qed.

(** Segments of different index have different files. *)
Lemma part_path_injective (wav : Path) (i j step : Z) :
  0 <= i / step -> 0 <= j / step ->
  part_path wav i step = part_path wav j step -> i / step = j / step.
Proof.
  intros Hi Hj E. apply (f_equal name) in E. rewrite !part_name in E.
  apply app_inv_head, app_inv_tail in E. now apply fmt_03d_injective.
Qed.

Lemma NoDup_map_on {A B} (f : A -> B) (l : list A) :
  (forall x y, In x l -> In y l -> f x = f y -> x = y) ->
  NoDup l -> NoDup (map f l).
Proof.
  intros Inj N. induction N as [|a l Ha N IH]; simpl; constructor.
  - intros H. apply in_map_iff in H. destruct H as (x & E & Hx).
    apply Ha. rewrite <- (Inj x a); auto; [now right|now left].
  - apply IH. intros x y Hx Hy. apply Inj; now right.
Qed.

(** The windows start at the multiples of the duration, in order. *)
Lemma chunk_windows_starts (audio : AudioSegment) (mins : Z)
  (windows : list (Z * AudioSegment)) :
  chunk_windows audio mins = Some windows ->
  windows = [] \/
  (0 < mins
   /\ map fst windows
      = map (fun k => Z.of_nat k * (mins * 60 * 1000))
            (seq 0 (List.length windows))).
Proof.
  unfold chunk_windows, Py.range.
  destruct (Z.eqb_spec (mins * 60 * 1000) 0); [discriminate|].
  intros [= <-]. destruct (Z.ltb_spec 0 mins) as [Hm|Hm].
  - right. split; [exact Hm|].
    rewrite range_items_windows by (try apply len_nonneg; lia).
    rewrite !map_map, !length_map, length_seq. reflexivity.
  - left. rewrite range_items_empty; [reflexivity|apply len_nonneg|].
    left. lia.
Qed.

Lemma part_paths_distinct (wav : Path) (audio : AudioSegment) (mins : Z)
  (windows : list (Z * AudioSegment)) :
  chunk_windows audio mins = Some windows ->
  NoDup (map (fun iw => part_path wav (fst iw) (mins * 60 * 1000)) windows).
Proof.
  intros H. destruct (chunk_windows_starts _ _ _ H) as [->|[Hm E]];
    [constructor|].
  rewrite <- (map_map fst (fun i => part_path wav i (mins * 60 * 1000))), E.
  rewrite map_map. apply NoDup_map_on; [|apply seq_NoDup].
  intros x y _ _ P. apply part_path_injective in P;
    rewrite ?Z.div_mul in * by lia; lia.
Qed.

Lemma lookup_unique (q : Path) (f : file) (l rest : list (Path * file)) :
  NoDup (map fst l) -> In (q, f) l -> lookup q (l ++ rest) = Some f.
Proof.
  unfold lookup. induction l as [|[q' f'] l IH]; [contradiction|].
  intros N H. inversion N as [|? ? Hq N']; subst. simpl.
  destruct (Path_eq_dec q' q) as [->|D].
  - destruct H as [[= ->]|H]; [reflexivity|].
    exfalso. apply Hq. apply in_map_iff. now exists (q, f).
  - destruct H as [[= -> _]|H]; [contradiction|]. now apply IH.
Qed.

(** After the export loop, the file of each window holds that window. *)
Lemma parts_hold_windows (wav : Path) (audio : AudioSegment) (mins : Z)
  (windows : list (Z * AudioSegment)) (rest : list (Path * file)) :
  chunk_windows audio mins = Some windows ->
  forall i seg,
    In (i, seg) windows ->
    lookup (part_path wav i (mins * 60 * 1000))
           (rev (map (fun iw => (part_path wav (fst iw) (mins * 60 * 1000),
                                 FWav (snd iw) export_parameters)) windows)
            ++ rest)
    = Some (FWav seg export_parameters).
Proof.
  intros H i seg Hin. apply lookup_unique.
  - rewrite map_rev, map_map. simpl. apply NoDup_rev.
    exact (part_paths_distinct wav audio mins windows H).
  - rewrite <- in_rev. apply in_map_iff. now exists (i, seg).
Qed.

(** The waveform is none of its segment files. *)
Lemma wav_not_part (wav : Path) (i step : Z) :
  noslash (name wav) = true ->
  stem wav ++ lit ".wav" = name wav ->
  wav <> part_path wav i step.
Proof.
  intros Hn Hs E. apply (f_equal name) in E. rewrite part_name in E.
  rewrite <- Hs in E, Hn.
  rewrite noslash_app in Hn. apply andb_true_iff in Hn. destruct Hn as [Hn _].
  rewrite split_slash_app, (split_slash_single _ Hn) in E by reflexivity.
  simpl in E. rewrite <- app_assoc in E. apply app_inv_head in E.
  apply (f_equal (@List.length N)) in E. rewrite !length_app in E.
  simpl in E. lia.
Qed.

(** ** The chunker, in full *)

Lemma chunk_windows_partition (audio : AudioSegment) (mins : Z) :
  0 < mins ->
  exists windows,
    chunk_windows audio mins = Some windows
    /\ Py.len windows = ceil_div (Py.len audio) (mins * 60 * 1000)
    /\ concat (map snd windows) = audio
    /\ (forall k i seg,
        nth_error windows k = Some (i, seg) ->
        i = Z.of_nat k * (mins * 60 * 1000)
        /\ i / (mins * 60 * 1000) = Z.of_nat k
        /\ seg = firstn (Z.to_nat (mins * 60 * 1000)) (skipn (Z.to_nat i) audio)
        /\ (Z.of_nat k + 1 < Py.len windows -> Py.len seg = mins * 60 * 1000)
        /\ (Z.of_nat k + 1 = Py.len windows ->
            0 < Py.len seg <= mins * 60 * 1000)).
Proof.
  intros Hm. set (d := mins * 60 * 1000). assert (Hd : 0 < d) by (unfold d; lia).
  pose proof (len_nonneg audio) as HL.
  destruct (ceil_div_bounds (Py.len audio) d HL Hd) as (Hn0 & Hlo & Hhi & Hz).
  set (n := ceil_div (Py.len audio) d) in *.
  assert (Hstart : forall k, (k < Z.to_nat n)%nat ->
                     0 <= Z.of_nat k * d < Py.len audio).
  { intros k Hk. destruct (Z.eqb_spec (Py.len audio) 0) as [E|E].
    - rewrite (Hz E) in Hk. simpl in Hk. lia.
    - assert (Z.of_nat k * d <= (n - 1) * d) by nia. nia. }
  assert (Hcw : exists ws,
             chunk_windows audio mins = Some ws
             /\ ws = map (fun k => (Z.of_nat k * d,
                                    audio_slice audio (Z.of_nat k * d)
                                                (Z.of_nat k * d + d)))
                         (seq 0 (Z.to_nat n))).
  { unfold chunk_windows. fold d. unfold Py.range.
    destruct (Z.eqb_spec d 0); [lia|].
    rewrite range_items_windows by assumption. fold n. rewrite map_map.
    eexists. split; reflexivity. }
  destruct Hcw as (ws & Hcw & Hws). exists ws.
  assert (Hlen : Py.len ws = n).
  { unfold Py.len. rewrite Hws, length_map, length_seq. lia. }
  split; [exact Hcw|]. split; [exact Hlen|]. rewrite Hlen.
  split.
  - rewrite Hws, map_map. simpl.
    rewrite (map_ext_in _ (fun k => firstn (Z.to_nat d)
                                      (skipn (k * Z.to_nat d) audio))).
    + rewrite concat_windows. apply firstn_all2. unfold Py.len in *. nia.
    + intros k Hk. apply in_seq in Hk.
      rewrite audio_slice_window by (try apply Hstart; lia).
      do 2 f_equal. lia.
  - intros k i seg Hk. rewrite Hws in Hk.
    rewrite nth_error_map, nth_error_seq in Hk.
    destruct (Nat.ltb_spec k (Z.to_nat n)) as [Hlt|]; [|discriminate].
    simpl in Hk. injection Hk as <- <-.
    pose proof (Hstart k Hlt) as Hi.
    rewrite audio_slice_window by assumption.
    split; [reflexivity|]. split; [now apply Z.div_mul; lia|].
    split; [reflexivity|].
    rewrite window_len by lia.
    destruct (Z.eqb_spec (Py.len audio) 0); [lia|].
    split; intros Hlast.
    + assert ((Z.of_nat k + 1) * d <= (n - 1) * d) by nia. lia.
    + assert (n * d = Z.of_nat k * d + d) by nia. lia.
Qed.

(** C3: for a positive number of minutes, that is a chunk duration [d] in
    milliseconds, the chunker cuts audio of length [L] into [ceil(L/d)]
    windows; the window of index [k] starts at millisecond [k * d], holds
    the next [d] milliseconds or what is left, has length [d] unless it is
    the last, whose length is in (0, d], and the windows concatenated in
    order are the audio; [chunk_wav] returns one path per window in that
    order, the paths are pairwise distinct, the path of window [k] is
    [<parent>/<stem>.part<k, three digits>.wav], and after the run that
    file holds window [k] with the export parameters. *)
Theorem chunk_wav_partition (audio : AudioSegment) (mins : Z) :
  0 < mins ->
  exists windows,
    chunk_windows audio mins = Some windows
    /\ Py.len windows = ceil_div (Py.len audio) (mins * 60 * 1000)
    /\ concat (map snd windows) = audio
    /\ (forall k i seg,
        nth_error windows k = Some (i, seg) ->
        i = Z.of_nat k * (mins * 60 * 1000)
        /\ i / (mins * 60 * 1000) = Z.of_nat k
        /\ seg = firstn (Z.to_nat (mins * 60 * 1000)) (skipn (Z.to_nat i) audio)
        /\ (Z.of_nat k + 1 < Py.len windows -> Py.len seg = mins * 60 * 1000)
        /\ (Z.of_nat k + 1 = Py.len windows ->
            0 < Py.len seg <= mins * 60 * 1000))
    /\ (forall env wav w,
        read_audio env wav w = (w, inr audio) ->
        exists w',
          chunk_wav env wav mins w
          = (w', inr (map (fun iw => part_path wav (fst iw) (mins * 60 * 1000))
                          windows))
          /\ fs w'
             = rev (map (fun iw => (part_path wav (fst iw) (mins * 60 * 1000),
                                    FWav (snd iw) export_parameters))
                        windows) ++ fs w
          /\ NoDup (map (fun iw => part_path wav (fst iw) (mins * 60 * 1000))
                        windows)
          /\ forall k i seg,
              nth_error windows k = Some (i, seg) ->
              part_path wav i (mins * 60 * 1000)
              = div (parent wav)
                    (stem wav ++ lit ".part" ++ fmt_03d (Z.of_nat k)
                     ++ lit ".wav")
              /\ lookup (part_path wav i (mins * 60 * 1000)) (fs w')
                 = Some (FWav seg export_parameters)).
Proof.
  intros Hm.
  destruct (chunk_windows_partition audio mins Hm)
    as (windows & Hcw & Hlen & Hcat & Hwin).
  exists windows. repeat (split; [assumption|]).
  intros env wav w Hr.
  destruct (export_parts_run wav (mins * 60 * 1000) windows w) as (w1 & E & F).
  eexists. split; [|split; [|split]].
  - unfold chunk_wav. unfold bind at 1. rewrite Hr, Hcw.
    unfold bind at 1. rewrite E. unfold bind, log, emit. simpl. reflexivity.
  - exact F.
  - exact (part_paths_distinct wav audio mins windows Hcw).
  - intros k i seg Hk. split.
    + destruct (Hwin k i seg Hk) as (_ & Hidx & _).
      unfold part_path. now rewrite Hidx.
    + simpl fs. rewrite F. apply (parts_hold_windows wav audio); trivial.
      exact (nth_error_In _ _ Hk).
Qed.

Lemma chunk_wav_partition_witness :
  exists windows,
    chunk_windows long_audio 1 = Some windows
    /\ Py.len windows = ceil_div (Py.len long_audio) (1 * 60 * 1000)
    /\ concat (map snd windows) = long_audio
    /\ (forall k i seg,
        nth_error windows k = Some (i, seg) ->
        i = Z.of_nat k * (1 * 60 * 1000)
        /\ i / (1 * 60 * 1000) = Z.of_nat k
        /\ seg = firstn (Z.to_nat (1 * 60 * 1000))
                        (skipn (Z.to_nat i) long_audio)
        /\ (Z.of_nat k + 1 < Py.len windows -> Py.len seg = 1 * 60 * 1000)
        /\ (Z.of_nat k + 1 = Py.len windows ->
            0 < Py.len seg <= 1 * 60 * 1000))
    /\ (forall env wav w,
        read_audio env wav w = (w, inr long_audio) ->
        exists w',
          chunk_wav env wav 1 w
          = (w', inr (map (fun iw => part_path wav (fst iw) (1 * 60 * 1000))
                          windows))
          /\ fs w'
             = rev (map (fun iw => (part_path wav (fst iw) (1 * 60 * 1000),
                                    FWav (snd iw) export_parameters))
                        windows) ++ fs w
          /\ NoDup (map (fun iw => part_path wav (fst iw) (1 * 60 * 1000))
                        windows)
          /\ forall k i seg,
              nth_error windows k = Some (i, seg) ->
              part_path wav i (1 * 60 * 1000)
              = div (parent wav)
                    (stem wav ++ lit ".part" ++ fmt_03d (Z.of_nat k)
                     ++ lit ".wav")
              /\ lookup (part_path wav i (1 * 60 * 1000)) (fs w')
                 = Some (FWav seg export_parameters)).
Proof. apply (chunk_wav_partition long_audio 1). lia. Defined.

(** The minute and a half of [long_audio] in chunks of one minute: a full
    window and the rest, in files numbered from zero. *)
Example chunk_wav_long_audio :
  let run := chunk_wav long_env demo_wav 1 long_extracted in
  let held q :=
    match lookup q (fs (fst run)) with
    | Some (FWav a _) => (hd 0 a, Py.len a)
    | _ => (0, 0)
    end in
  match snd run with
  | inr parts => Some (map name parts, map held parts)
  | inl _ => None
  end
  = Some ([lit "talk.part000.wav"; lit "talk.part001.wav"],
          [(0, 60000); (60000, 30000)]).
Proof. vm_compute. reflexivity. Qed.

(** ** Extraction and chunking, in full *)

Lemma with_suffix_names (p wav : Path) :
  with_suffix p (lit ".wav") = Some wav ->
  name wav = stem p ++ lit ".wav" /\ stem wav = stem p.
Proof.
  unfold with_suffix. destruct (name p) as [|c r] eqn:E; [discriminate|].
  simpl Py.truthy. intros H.
  assert (W : wav = mkPath (root p)
                           (removelast (names p) ++ [stem p ++ lit ".wav"]))
    by congruence.
  clear H. subst wav.
  assert (N : name (mkPath (root p)
                           (removelast (names p) ++ [stem p ++ lit ".wav"]))
              = stem p ++ lit ".wav")
    by (unfold name; simpl; apply last_last).
  split; [exact N|].
  assert (Hs : stem p <> []) by (apply stem_nonempty; congruence).
  unfold stem at 1, suffix_index. rewrite N, rfind_dot_wav.
  unfold Py.len. rewrite length_app.
  change (List.length (lit ".wav")) with 4%nat.
  assert (0 < List.length (stem p))%nat
    by (destruct (stem p); [contradiction|simpl; lia]).
  destruct (Z.ltb_spec 0 (Z.of_nat (List.length (stem p)))); [|lia].
  destruct (Z.ltb_spec (Z.of_nat (List.length (stem p)))
                       (Z.of_nat (List.length (stem p) + 4) - 1)); [|lia].
  simpl. rewrite firstn_app, firstn_all, Nat.sub_diag. simpl.
  apply app_nil_r.
Qed.

Lemma noslash_firstn (i : nat) (s : str) :
  noslash s = true -> noslash (firstn i s) = true.
Proof.
  revert s. induction i as [|i IH]; intros [|c r]; simpl; trivial.
  intros H. apply andb_true_iff in H. destruct H as [Hc Hr].
  now rewrite Hc, IH.
Qed.

Lemma stem_noslash (p : Path) : noslash (name p) = true -> noslash (stem p) = true.
Proof.
  intros H. unfold stem. destruct (suffix_index (name p)); [|exact H].
  now apply noslash_firstn.
Qed.

Lemma chunk_run_windows (env : Env) (wav : Path) (audio : AudioSegment)
  (mins : Z) (windows : list (Z * AudioSegment)) (w : World) :
  read_audio env wav w = (w, inr audio) ->
  chunk_windows audio mins = Some windows ->
  exists w',
    chunk_wav env wav mins w
    = (w', inr (map (fun iw => part_path wav (fst iw) (mins * 60 * 1000))
                    windows))
    /\ fs w'
       = rev (map (fun iw => (part_path wav (fst iw) (mins * 60 * 1000),
                              FWav (snd iw) export_parameters)) windows)
         ++ fs w.
Proof.
  intros Hr Hc.
  destruct (export_parts_run wav (mins * 60 * 1000) windows w) as (w3 & X & F).
  eexists. split.
  - unfold chunk_wav. unfold bind at 1. rewrite Hr, Hc.
    unfold bind at 1. rewrite X. unfold bind, log, emit. simpl. reflexivity.
  - exact F.
Qed.

(** X10: extraction followed by chunking, on an input that decodes and for
    a positive duration, succeeds with the windows of the decoded audio,
    which concatenate to it; the waveform is written first, then the
    segments, to pairwise distinct files, and afterwards the file of each
    window holds that window; for an input whose name holds no slash the
    waveform file is none of the segment files and still holds the whole
    audio. *)
Theorem extract_then_chunk (env : Env) (mp4 wav : Path) (audio : AudioSegment)
  (mins : Z) (w : World) :
  with_suffix mp4 (lit ".wav") = Some wav ->
  read_audio env mp4 w = (w, inr audio) ->
  0 < mins ->
  exists w' windows,
    (wav' <- extract_wav_from_mp4 env mp4 ;; chunk_wav env wav' mins) w
    = (w', inr (map (fun iw => part_path wav (fst iw) (mins * 60 * 1000))
                    windows))
    /\ chunk_windows audio mins = Some windows
    /\ concat (map snd windows) = audio
    /\ fs w'
       = rev (map (fun iw => (part_path wav (fst iw) (mins * 60 * 1000),
                              FWav (snd iw) export_parameters)) windows)
         ++ (wav, FWav audio []) :: fs w
    /\ NoDup (map (fun iw => part_path wav (fst iw) (mins * 60 * 1000))
                  windows)
    /\ (forall i seg,
          In (i, seg) windows ->
          lookup (part_path wav i (mins * 60 * 1000)) (fs w')
          = Some (FWav seg export_parameters))
    /\ (noslash (name mp4) = true ->
        lookup wav (fs w') = Some (FWav audio [])
        /\ ~ In wav (map (fun iw => part_path wav (fst iw) (mins * 60 * 1000))
                         windows)).
Proof.
  intros Hs Hr Hm.
  destruct (chunk_windows_cover audio mins Hm) as (windows & Hc & Hcat).
  destruct (extract_run env mp4 wav audio w Hs Hr) as (w2 & E & F2).
  assert (R : read_audio env wav w2 = (w2, inr audio))
    by (apply (read_audio_written env wav audio []); now rewrite F2).
  destruct (chunk_run_windows env wav audio mins windows w2 R Hc)
    as (w' & C & F).
  exists w', windows.
  split; [unfold bind; now rewrite E|].
  split; [exact Hc|]. split; [exact Hcat|].
  split; [now rewrite F, F2|].
  split; [exact (part_paths_distinct wav audio mins windows Hc)|].
  split.
  - intros i seg Hin. rewrite F.
    now apply (parts_hold_windows wav audio).
  - intros Hn.
    destruct (with_suffix_names mp4 wav Hs) as [Nw Sw].
    assert (Hnw : noslash (name wav) = true)
      by (rewrite Nw, noslash_app, (stem_noslash _ Hn); reflexivity).
    assert (Hsw : stem wav ++ lit ".wav" = name wav) by now rewrite Sw, Nw.
    assert (D : forall iw : Z * AudioSegment,
               part_path wav (fst iw) (mins * 60 * 1000) <> wav)
      by (intros iw E'; exact (wav_not_part wav _ _ Hnw Hsw (eq_sym E'))).
    split.
    + rewrite F, F2, lookup_skip; [apply lookup_head|].
      apply Forall_forall. intros e He. rewrite <- in_rev in He.
      apply in_map_iff in He. destruct He as (iw & <- & _). apply D.
    + intros Hin. apply in_map_iff in Hin. destruct Hin as (iw & E' & _).
      exact (D iw E').
Qed.

Lemma extract_then_chunk_witness :
  exists w' windows,
    (wav' <- extract_wav_from_mp4 long_env (div demo_base (lit "talk.mp4")) ;;
     chunk_wav long_env wav' 1) demo_world
    = (w', inr (map (fun iw => part_path demo_wav (fst iw) (1 * 60 * 1000))
                    windows))
    /\ chunk_windows long_audio 1 = Some windows
    /\ concat (map snd windows) = long_audio
    /\ fs w'
       = rev (map (fun iw => (part_path demo_wav (fst iw) (1 * 60 * 1000),
                              FWav (snd iw) export_parameters)) windows)
         ++ (demo_wav, FWav long_audio []) :: fs demo_world
    /\ NoDup (map (fun iw => part_path demo_wav (fst iw) (1 * 60 * 1000))
                  windows)
    /\ (forall i seg,
          In (i, seg) windows ->
          lookup (part_path demo_wav i (1 * 60 * 1000)) (fs w')
          = Some (FWav seg export_parameters))
    /\ (noslash (name (div demo_base (lit "talk.mp4"))) = true ->
        lookup demo_wav (fs w') = Some (FWav long_audio [])
        /\ ~ In demo_wav
                (map (fun iw => part_path demo_wav (fst iw) (1 * 60 * 1000))
                     windows)).
Proof.
  apply (extract_then_chunk long_env (div demo_base (lit "talk.mp4")) demo_wav
           long_audio 1 demo_world).
  - vm_compute. reflexivity.
  - reflexivity.
  - lia.
Defined.

(** ** The transcript of a job *)

Lemma read_audio_world (env : Env) (p : Path) (w w' : World)
  (r : exn + AudioSegment) :
  read_audio env p w = (w', r) -> w' = w.
Proof.
  unfold read_audio. destruct (lookup p (fs w)) as [[| |]|]; now intros [= <- _].
Qed.

Lemma extract_inv (env : Env) (mp4 wav : Path) (w w' : World) :
  extract_wav_from_mp4 env mp4 w = (w', inr wav) ->
  with_suffix mp4 (lit ".wav") = Some wav
  /\ exists audio,
      read_audio env mp4 w = (w, inr audio)
      /\ fs w' = (wav, FWav audio []) :: fs w.
Proof.
  unfold extract_wav_from_mp4.
  destruct (with_suffix mp4 (lit ".wav")) as [wav0|]; [|discriminate].
  intros H.
  apply bind_ok in H. destruct H as (u1 & w1 & H1 & H).
  apply bind_ok in H. destruct H as (audio & w2 & H2 & H).
  apply bind_ok in H. destruct H as (u3 & w3 & H3 & H).
  injection H as <- <-. split; [reflexivity|]. exists audio.
  apply emit_ok in H1.
  pose proof (read_audio_world _ _ _ _ _ H2) as ->.
  split.
  - now apply (read_audio_same_files env mp4 w1 w).
  - unfold write_file in H3. injection H3 as <-. simpl. now rewrite H1.
Qed.

Lemma chunk_inv (env : Env) (wav : Path) (mins : Z) (w w' : World)
  (parts : list Path) :
  chunk_wav env wav mins w = (w', inr parts) ->
  exists audio windows,
    read_audio env wav w = (w, inr audio)
    /\ chunk_windows audio mins = Some windows
    /\ parts = map (fun iw => part_path wav (fst iw) (mins * 60 * 1000)) windows
    /\ fs w'
       = rev (map (fun iw => (part_path wav (fst iw) (mins * 60 * 1000),
                              FWav (snd iw) export_parameters)) windows)
         ++ fs w.
Proof.
  unfold chunk_wav. intros H.
  apply bind_ok in H. destruct H as (audio & w1 & H1 & H).
  pose proof (read_audio_world _ _ _ _ _ H1) as ->.
  destruct (chunk_windows audio mins) as [windows|] eqn:C; [|discriminate].
  destruct (export_parts_run wav (mins * 60 * 1000) windows w) as (w2 & X & F).
  unfold bind at 1 in H. rewrite X in H.
  apply bind_ok in H. destruct H as (u3 & w3 & H3 & H).
  injection H as <- <-. apply emit_ok in H3.
  exists audio, windows. repeat split; trivial. now rewrite H3.
Qed.

Lemma write_text_ok (env : Env) (outfile : Path) (s : str) (w w' : World)
  (u : unit) :
  write_text env outfile s w = (w', inr u) ->
  exists content,
    Py.utf8_encode (translate_newlines (os_linesep env) s) = Some content
    /\ fs w' = (outfile, FText content) :: (outfile, FText "") :: fs w.
Proof.
  unfold write_text. intros H.
  apply bind_ok in H. destruct H as (u1 & w1 & H1 & H).
  unfold write_file in H1. injection H1 as <-.
  destruct (Py.utf8_encode (translate_newlines (os_linesep env) s))
    as [content|]; [|discriminate].
  unfold write_file in H. injection H as <-. now exists content.
Qed.

(** C8: when the body of the pipeline succeeds, the input was decoded to
    some audio, the fragments are, window by window in index order, the
    texts the recogniser returned for the segment files of the windows of
    that audio, each joined without separator; the full transcript is the
    fragments joined without separator; and the last file written is
    [<base_dir>/transcripts/<stem>.txt], holding the UTF-8 encoding of the
    paragraphs of the transcript joined by two line feeds and nothing else
    (each line feed written as the platform's line separator). *)
Theorem pipeline_writes_transcript (env : Env) (base : Path) (p : Params)
  (w w' : World) :
  pipeline_body env base p w = (w', inr tt) ->
  exists wav audio windows texts content,
    with_suffix (mp4_path p) (lit ".wav") = Some wav
    /\ read_audio env (mp4_path p) w = (w, inr audio)
    /\ chunk_windows audio (minutes p) = Some windows
    /\ Forall2 (fun iw text =>
                  exists segs,
                    recognise env (model p) (FWav (snd iw) export_parameters)
                              (use_language (language p))
                              (vad_ms p) (beam p) (cond_prev p) = inr segs
                    /\ text = concat segs) windows texts
    /\ Py.utf8_encode
         (translate_newlines (os_linesep env)
            (Py.join [newline; newline]
                     (paragraphize (concat texts) (para_max p))))
       = Some content
    /\ hd_error (fs w')
       = Some (div (div base (lit "transcripts"))
                   (stem (mp4_path p) ++ lit ".txt"),
               FText content).
Proof.
  unfold pipeline_body. intros H.
  apply bind_ok in H. destruct H as (ff & w1 & He & H).
  apply bind_ok in H. destruct H as (u2 & w2 & H2 & H).
  apply bind_ok in H. destruct H as (wav & w3 & Hx & H).
  apply bind_ok in H. destruct H as (parts & w4 & Hc & H).
  apply bind_ok in H. destruct H as (u5 & w5 & H5 & H).
  cbv zeta in H.
  apply bind_ok in H. destruct H as (u6 & w6 & H6 & H).
  apply bind_ok in H. destruct H as (m & w7 & Hm & H).
  apply bind_ok in H. destruct H as (texts & w8 & Ht & H).
  apply bind_ok in H. destruct H as (u9 & w9 & H9 & H).
  apply bind_ok in H. destruct H as (u10 & w10 & H10 & H).
  apply bind_ok in H. destruct H as (u11 & w11 & H11 & H).
  apply bind_ok in H. destruct H as (u12 & w12 & H12 & H).
  assert (F1 : fs w1 = fs w)
    by (pose proof (ensure_ffmpeg_files env base w) as F; now rewrite He in F).
  apply emit_ok in H2.
  apply extract_inv in Hx. destruct Hx as (Hs & audio & Hr & F3).
  apply chunk_inv in Hc.
  destruct Hc as (audio' & windows & Hr' & Hw & -> & F4).
  assert (audio' = audio).
  { rewrite (read_audio_written env wav audio [] w3) in Hr'
      by now rewrite F3.
    congruence. }
  subst audio'.
  apply emit_ok in H5. apply emit_ok in H6.
  apply WhisperModel_ok in Hm. destruct Hm as [-> ->].
  apply transcribe_parts_ok in Ht. destruct Ht as [_ F].
  apply write_text_ok in H11. destruct H11 as (content & Henc & Hfs).
  apply emit_ok in H12. apply emit_ok in H.
  exists wav, audio, windows, texts, content.
  split; [exact Hs|].
  split; [apply (read_audio_same_files env _ w2 w); congruence|].
  split; [exact Hw|]. split; [|split; [exact Henc|]].
  - assert (L : forall iw, In iw windows ->
                  lookup (part_path wav (fst iw) (minutes p * 60 * 1000))
                         (fs w6)
                  = Some (FWav (snd iw) export_parameters)).
    { intros [i seg] Hin. rewrite H6, H5, F4.
      now apply (parts_hold_windows wav audio). }
    clear - F L. remember (map _ windows) as parts eqn:E.
    revert windows E L. induction F as [|part text parts texts Hp F IH];
      intros windows E L.
    + destruct windows; [constructor|discriminate].
    + destruct windows as [|iw windows]; [discriminate|].
      injection E as -> E. constructor.
      * destruct Hp as (f & segs & Hl & Hrec & ->).
        rewrite (L iw (or_introl eq_refl)) in Hl. injection Hl as <-.
        now exists segs.
      * apply IH; [exact E|]. intros x Hx. apply L. now right.
  - rewrite H, H12, Hfs. reflexivity.
Qed.

Lemma pair_of_snd {A B} (x : A * B) (b : B) : snd x = b -> x = (fst x, b).
Proof. destruct x. simpl. now intros ->. Qed.

Lemma pipeline_writes_transcript_witness :
  exists wav audio windows texts content,
    with_suffix (mp4_path long_params) (lit ".wav") = Some wav
    /\ read_audio long_env (mp4_path long_params) demo_world
       = (demo_world, inr audio)
    /\ chunk_windows audio (minutes long_params) = Some windows
    /\ Forall2 (fun iw text =>
                  exists segs,
                    recognise long_env (model long_params)
                              (FWav (snd iw) export_parameters)
                              (use_language (language long_params))
                              (vad_ms long_params) (beam long_params)
                              (cond_prev long_params) = inr segs
                    /\ text = concat segs) windows texts
    /\ Py.utf8_encode
         (translate_newlines (os_linesep long_env)
            (Py.join [newline; newline]
                     (paragraphize (concat texts) (para_max long_params))))
       = Some content
    /\ hd_error
         (fs (fst (pipeline_body long_env demo_base long_params demo_world)))
       = Some (div (div demo_base (lit "transcripts"))
                   (stem (mp4_path long_params) ++ lit ".txt"),
               FText content).
Proof.
  apply (pipeline_writes_transcript long_env demo_base long_params demo_world).
  apply pair_of_snd. vm_compute. reflexivity.
Defined.

(** The job on [long_audio]: two chunks, three paragraphs under a target
    of twelve, in chunk order, with CR LF line ends in the file. *)
Example long_output :
  option_map
    (fun e => (fst e, match snd e with FText c => Py.utf8_decode c | _ => [] end))
    (hd_error (fs (run_pipeline long_env demo_base long_params demo_world)))
  = Some (mkPath [slash] [lit "app"; lit "transcripts"; lit "talk.txt"],
          lit "第一段的第一句。" ++ [13; 10; 13; 10]%N
          ++ lit "第一段的第二句。" ++ [13; 10; 13; 10]%N ++ lit "第二段。").
Proof. vm_compute. reflexivity. Qed.

(** The run of the small world: the transcript of the one chunk, written
    to [/app/transcripts/talk.txt]. *)
Example demo_output :
  hd_error (fs (run_pipeline demo_env demo_base demo_params demo_world))
  = Some (mkPath [slash] [lit "app"; lit "transcripts"; lit "talk.txt"],
          FText "今天天氣很好。我們去公園散步。").
Proof. vm_compute. reflexivity. Qed.

(** A transcript that cannot be encoded leaves the emptied file behind. *)
Example write_text_surrogate :
  write_text demo_env demo_part [0xD800%N] demo_world
  = (mkWorld [(demo_part, FText "")] None [] false, inl UnicodeEncodeError).
Proof. reflexivity. Qed.

(** ** A job writes only its own files *)

Section Within.

Variable allowed : Path -> Prop.


















End Within.



